(** * Mmani spectral embedding: a shallow embedding of
      [Mmani/embedding/spectral_embedding.py] and the properties of its
      pipeline.

    The development follows the Python module function by function:
    - numpy arrays are lists with an explicit shape, indexed and sliced with
      Python's rules (negative indices, clamping, negative steps);
    - scipy sparse matrices are a format tag, a shape and the list of stored
      (row, col, value) entries;
    - exceptions and warnings are explicit: a computation returns the trace
      of its observable events together with either an exception or a value;
    - in-place mutation ([_set_diag] on a dense array) acts on a store of
      objects addressed by references. *)

From Stdlib Require Import ZArith Lia List Bool String Sorted.
From stdpp Require Import base option list gmap strings.

Local Open Scope Z_scope.
Local Open Scope nat_scope.

(** ** Scalars

    Array entries are floating point numbers in the program.  Nothing below
    depends on their arithmetic, only on the operations the module applies
    to them: the additive unit (an entry that is not stored in a sparse
    matrix), addition (duplicate sparse entries add up), the product used by
    the degree rescaling and the test [x != 0]. *)

Class Scalar (F : Type) := {
  fzero : F;
  fadd : F → F → F;
  fmul : F → F → F;
  fnonzero : F → bool
}.

(** ** Exceptions *)

Inductive exn :=
| ValueError
| RuntimeError
| IndexError
| NameError
| AttributeError
| ConfigurationError
| NumericalNonConvergence.

#[global] Instance exn_eq_dec : EqDecision exn.
Proof. solve_decision. Defined.

(** ** Python slicing

    [slice_adjust] is the clamping CPython applies to an explicit slice bound
    for a sequence of length [n]; [slice_indices] lists the indices selected
    by [start:stop:step] ([step] is never 0 in this module). *)

Definition slice_adjust (n : nat) (neg : bool) (i : Z) : Z :=
  let i' := if (i <? 0)%Z then (i + Z.of_nat n)%Z else i in
  if (i' <? 0)%Z then (if neg then (-1)%Z else 0%Z)
  else if (Z.of_nat n <=? i')%Z
       then (if neg then (Z.of_nat n - 1)%Z else Z.of_nat n)
       else i'.

Definition slice_indices (n : nat) (start stop : option Z) (step : Z)
  : list nat :=
  let neg := (step <? 0)%Z in
  let lo := match start with
            | Some s => slice_adjust n neg s
            | None => if neg then (Z.of_nat n - 1)%Z else 0%Z
            end in
  let hi := match stop with
            | Some s => slice_adjust n neg s
            | None => if neg then (-1)%Z else Z.of_nat n
            end in
  let len := if neg
             then (if (hi <? lo)%Z then ((lo - hi - 1) / (- step) + 1)%Z
                   else 0%Z)
             else (if (lo <? hi)%Z then ((hi - lo - 1) / step + 1)%Z
                   else 0%Z) in
  map (λ i, Z.to_nat (lo + Z.of_nat i * step)%Z) (seq 0 (Z.to_nat len)).

Definition py_slice {A} (l : list A) (start stop : option Z) (step : Z)
  : list A :=
  omap (λ i, l !! i) (slice_indices (length l) start stop step).

(** ** Two-dimensional arrays

    A numpy array of shape [(r, c)] is the list of its [r] rows together
    with [c]; keeping [c] apart from the rows keeps the shape of an array
    without rows. *)

Record array2 (F : Type) := Array2 {
  ncols : nat;
  rows : list (list F)
}.
Arguments Array2 {F}.
Arguments ncols {F}.
Arguments rows {F}.

Definition nrows {F} (a : array2 F) : nat := length (rows a).

Definition wf_array2 {F} (a : array2 F) : Prop :=
  Forall (λ r, length r = ncols a) (rows a).

Definition square {F} (a : array2 F) : Prop :=
  wf_array2 a ∧ ncols a = nrows a.

Definition column {F} (j : nat) (rs : list (list F)) : list F :=
  omap (λ r : list F, r !! j) rs.

(** [a.T] *)
Definition transpose {F} (a : array2 F) : array2 F :=
  {| ncols := nrows a;
     rows := map (λ j, column j (rows a)) (seq 0 (ncols a)) |}.

(** [a[start:stop:step]], a slice of the first axis. *)
Definition slice_rows {F} (a : array2 F) (start stop : option Z) (step : Z)
  : array2 F :=
  {| ncols := ncols a; rows := py_slice (rows a) start stop step |}.

(** [a.diagonal()] *)
Definition diagonal {F} (a : array2 F) : list F :=
  omap (λ i, rows a !! i ≫= (λ r : list F, r !! i))
       (seq 0 (Nat.min (nrows a) (ncols a))).

(** [a * v] for [a] of shape [(r, c)] and [v] of shape [(n,)], with numpy's
    broadcasting: the trailing dimensions must agree or one of them be 1. *)
Definition broadcast_mul {F} `{Scalar F} (a : array2 F) (v : list F)
  : exn + array2 F :=
  if decide (ncols a = length v) then
    inr {| ncols := ncols a; rows := map (λ r, zip_with fmul r v) (rows a) |}
  else if decide (ncols a = 1) then
    inr {| ncols := length v;
           rows := map (λ r, r ≫= (λ x, map (fmul x) v)) (rows a) |}
  else match v with
       | [d] => inr {| ncols := ncols a;
                       rows := map (map (λ x, fmul x d)) (rows a) |}
       | _ => inl ValueError
       end.

(** ** Fallible computations *)

Definition bind_exn {A B} (m : exn + A) (k : A → exn + B) : exn + B :=
  match m with
  | inl e => inl e
  | inr a => k a
  end.

Notation "'let!' x ':=' m 'in' k" := (bind_exn m (λ x, k))
  (at level 10, x name, m at level 100, k at level 200).

(** ** Sparse matrices

    A scipy sparse matrix is modelled by its storage format, its shape and
    the list of its stored entries, as the COO triple [(row, col, data)]
    exposes them.  An entry that is stored several times stands for the sum
    of its values, and an entry that is not stored is zero.  A conversion
    between formats keeps the list of stored entries; scipy may lay it out
    anew, and merge the entries stored several times, which leaves the
    format, the shape and the value of every entry ([sp_entry]) the same. *)

Inductive sp_format := COO | CSR | CSC | DIA | BSR | LIL | DOK.

#[global] Instance sp_format_eq_dec : EqDecision sp_format.
Proof. solve_decision. Defined.

Record spmatrix (F : Type) := SpMatrix {
  sp_fmt : sp_format;
  sp_shape : nat * nat;
  sp_entries : list (nat * nat * F)
}.
Arguments SpMatrix {F}.
Arguments sp_fmt {F}.
Arguments sp_shape {F}.
Arguments sp_entries {F}.

Definition wf_spmatrix {F} (s : spmatrix F) : Prop :=
  Forall (λ e : nat * nat * F, e.1.1 < (sp_shape s).1 ∧ e.1.2 < (sp_shape s).2)
         (sp_entries s).

Definition sp_entry {F} `{Scalar F} (s : spmatrix F) (i j : nat) : F :=
  foldr fadd fzero
        (omap (λ e : nat * nat * F,
                 if decide (e.1.1 = i ∧ e.1.2 = j) then Some e.2 else None)
              (sp_entries s)).

(** [s.diagonal()] *)
Definition sp_diagonal {F} `{Scalar F} (s : spmatrix F) : list F :=
  map (λ i, sp_entry s i i)
      (seq 0 (Nat.min (sp_shape s).1 (sp_shape s).2)).

(** A matrix handed around by the module is a numpy array or a scipy sparse
    matrix; [sparse.isspmatrix] tells them apart. *)
Inductive matrix (F : Type) :=
| Dense (a : array2 F)
| Sparse (s : spmatrix F).
Arguments Dense {F}.
Arguments Sparse {F}.

Definition isspmatrix {F} (m : matrix F) : bool :=
  match m with Dense _ => false | Sparse _ => true end.

(** [m.shape[0]] *)
Definition shape0 {F} (m : matrix F) : nat :=
  match m with
  | Dense a => nrows a
  | Sparse s => (sp_shape s).1
  end.

Definition shape1 {F} (m : matrix F) : nat :=
  match m with
  | Dense a => ncols a
  | Sparse s => (sp_shape s).2
  end.

Definition matrix_diagonal {F} `{Scalar F} (m : matrix F) : list F :=
  match m with
  | Dense a => diagonal a
  | Sparse s => sp_diagonal s
  end.

(** ** Graph connectivity *)

Section Connectivity.
Context {F : Type} `{Scalar F}.

(** [mask.sum()] for a boolean array *)
Definition count_true (mask : list bool) : nat :=
  length (filter (λ b : bool, b = true) mask).

(** [a[mask]]: the rows of [a] at which the boolean [mask] holds *)
Fixpoint select_rows {A} (mask : list bool) (rs : list A) : list A :=
  match mask, rs with
  | b :: mask', r :: rs' =>
      if b then r :: select_rows mask' rs' else select_rows mask' rs'
  | _, _ => []
  end.

(** The column indices of the entries of a row that are [!= 0], counted
    from [j]. *)
Fixpoint nonzero_from (j : nat) (r : list F) : list nat :=
  match r with
  | [] => []
  | x :: r' =>
      if fnonzero x then j :: nonzero_from (S j) r'
      else nonzero_from (S j) r'
  end.

(** [_, node_to_add = np.where(graph[connected_components] != 0)] *)
Definition node_to_add (graph : array2 F) (connected_components : list bool)
  : list nat :=
  select_rows connected_components (rows graph) ≫= nonzero_from 0.

(** [mask[idx] = True]; an index past the end raises [IndexError]. *)
Definition mark (mask : list bool) (idx : list nat) : exn + list bool :=
  if decide (Forall (λ j, j < length mask) idx)
  then inr (foldr (λ j m, <[j:=true]> m) mask idx)
  else inl IndexError.

(** The loop of [_graph_connected_component]: at most [fuel] rounds, each
    marking the nodes listed by [succs] for the current mask, left as soon
    as a round does not raise the number of marked nodes.  The expression
    that lists the nodes to add is a parameter, so that the model of the
    sparse component count below runs the same loop. *)
Fixpoint grow (succs : list bool → list nat) (fuel : nat)
         (connected_components : list bool) : exn + list bool :=
  match fuel with
  | 0 => inr connected_components
  | S fuel' =>
      let last_num_component := count_true connected_components in
      let! connected_components' := mark connected_components
                                    (succs connected_components) in
      if decide (count_true connected_components' ≤ last_num_component)
      then inr connected_components'
      else grow succs fuel' connected_components'
  end.

Definition _graph_connected_component (graph : array2 F) (node_id : nat)
  : exn + list bool :=
  let connected_components := replicate (nrows graph) false in
  if decide (node_id < nrows graph) then
    let connected_components := <[node_id:=true]> connected_components in
    let n_node := nrows graph in
    grow (node_to_add graph) n_node connected_components
  else inl IndexError.

(** scipy's [connected_components] (reached through
    [sklearn.utils.sparsetools]) with its default arguments labels the
    weakly connected components of the graph whose edges are the stored
    entries.  The model visits the nodes in order and, at each node not
    yet labelled, collects its component by following stored entries in
    both directions.  Only the number of components is used by the
    caller. *)
Definition weak_succs (s : spmatrix F) (mask : list bool) : list nat :=
  sp_entries s ≫=
    (λ e : nat * nat * F,
       (if bool_decide (mask !! e.1.1 = Some true) then [e.1.2] else [])
       ++ (if bool_decide (mask !! e.1.2 = Some true) then [e.1.1] else [])).

Fixpoint label_components (s : spmatrix F) (n : nat) (nodes : list nat)
         (seen : list bool) (count : nat) : exn + nat :=
  match nodes with
  | [] => inr count
  | i :: nodes' =>
      if bool_decide (seen !! i = Some true)
      then label_components s n nodes' seen count
      else
        let! comp := grow (weak_succs s) n (<[i:=true]> (replicate n false)) in
        label_components s n nodes' (zip_with orb seen comp) (S count)
  end.

Definition connected_components (s : spmatrix F) : exn + (nat * unit) :=
  if decide ((sp_shape s).1 = (sp_shape s).2) then
    let n := (sp_shape s).1 in
    let! c := label_components s n (seq 0 n) (replicate n false) 0 in
    inr (c, ())
  else inl ValueError.

Definition _graph_is_connected (graph : matrix F) : exn + bool :=
  match graph with
  | Sparse s =>
      (* sparse graph, find all the connected components *)
      let! r := connected_components s in
      inr (bool_decide (r.1 = 1))
  | Dense a =>
      (* dense graph, find all connected components start from node 0 *)
      let! cc := _graph_connected_component a 0 in
      inr (bool_decide (count_true cc = nrows a))
  end.

End Connectivity.

(** ** Conditioning the Laplacian: [_set_diag] *)

(** Objects live in a store and are handed around by reference, so that a
    mutation made through one reference is seen through all of them. *)
Definition ref := nat.
Abbreviation store F := (list (matrix F)).

Definition alloc {F} (h : store F) (o : matrix F) : store F * ref :=
  (h ++ [o], length h).

Section SetDiag.
Context {F : Type} `{Scalar F}.

(** [a.flat[::stride] = value] on the row-major flattening of [a] *)
Definition set_flat_stride (a : array2 F) (stride : nat) (value : F)
  : array2 F :=
  let flat := mjoin (rows a) in
  let flat' :=
    imap (λ i x, if decide (i `mod` stride = 0) then value else x) flat in
  {| ncols := ncols a;
     rows := reshape (replicate (nrows a) (ncols a)) flat' |}.

(** [s.tocoo()], [s.todia()], [s.tocsr()] *)
Definition with_format (fmt : sp_format) (s : spmatrix F) : spmatrix F :=
  {| sp_fmt := fmt; sp_shape := sp_shape s; sp_entries := sp_entries s |}.

(** [diag_idx = (s.row == s.col); s.data[diag_idx] = value] *)
Definition set_stored_diag (s : spmatrix F) (value : F) : spmatrix F :=
  {| sp_fmt := sp_fmt s;
     sp_shape := sp_shape s;
     sp_entries :=
       map (λ e : nat * nat * F,
              if decide (e.1.1 = e.1.2) then (e.1.1, e.1.2, value) else e)
           (sp_entries s) |}.

(** [s.row - s.col] *)
Definition offsets (s : spmatrix F) : list Z :=
  map (λ e : nat * nat * F, (Z.of_nat e.1.1 - Z.of_nat e.1.2)%Z)
      (sp_entries s).

(** [np.unique]: the sorted distinct values *)
Fixpoint insert_unique (x : Z) (l : list Z) : list Z :=
  match l with
  | [] => [x]
  | y :: l' =>
      if (x <? y)%Z then x :: l
      else if (x =? y)%Z then l
      else y :: insert_unique x l'
  end.

Definition np_unique (l : list Z) : list Z := foldr insert_unique [] l.

(** [_set_diag(laplacian, value)].  The result is [None] only for a
    reference that is not in the store, which no Python program holds.
    [tocoo] returns the matrix itself when it is already in COO format and a
    new object otherwise; [todia] and [tocsr] make a new object. *)
Definition _set_diag (h : store F) (laplacian : ref) (value : F)
  : option (store F * ref) :=
  match h !! laplacian with
  | None => None
  | Some (Dense a) =>
      let n_nodes := nrows a in
      (* We need all entries in the diagonal to values *)
      Some (<[laplacian := Dense (set_flat_stride a (n_nodes + 1) value)]> h,
            laplacian)
  | Some (Sparse s) =>
      let '(h, laplacian) :=
        if decide (sp_fmt s = COO) then (h, laplacian)
        else alloc h (Sparse (with_format COO s)) in
      let coo := set_stored_diag (with_format COO s) value in
      let h := <[laplacian := Sparse coo]> h in
      let n_diags := length (np_unique (offsets coo)) in
      if decide (n_diags ≤ 7) then
        (* 3 or less outer diagonals on each side *)
        Some (alloc h (Sparse (with_format DIA coo)))
      else
        (* csr has the fastest matvec and is thus best suited to arpack *)
        Some (alloc h (Sparse (with_format CSR coo)))
  end.

End SetDiag.

(** ** The pipeline: [spectral_embedding] *)

(** [eigen_solver : {None, 'arpack', 'lobpcg', or 'amg'}] *)
Inductive solver :=
| SolverNone
| Arpack
| Lobpcg
| Amg
| SolverOther (name : string).

(** A [numpy.random.RandomState]: the global one or one made from a seed. *)
Inductive rng :=
| GlobalRng
| SeededRng (s : Z).

(** [random_state : int seed, RandomState instance, or None]; any other
    object is a [SeedOther]. *)
Inductive seed :=
| SeedNone
| SeedInt (s : Z)
| SeedRandomState (r : rng)
| SeedOther (repr : string).

(** [sklearn.utils.check_random_state]: [None] gives the global generator,
    an integer a new generator (numpy accepts seeds from 0 to 2**32 - 1),
    a generator is returned as it is, and anything else is a
    [ValueError]. *)
Definition check_random_state (s : seed) : exn + rng :=
  match s with
  | SeedNone => inr GlobalRng
  | SeedInt z =>
      if decide (0 ≤ z < 2 ^ 32)%Z then inr (SeededRng z) else inl ValueError
  | SeedRandomState r => inr r
  | SeedOther _ => inl ValueError
  end.

(** A [Mmani.embedding.geometry.Geometry] object, through the two methods
    the pipeline calls. *)
Record Geometry (F : Type) := {
  get_affinity_matrix : exn + matrix F;
  get_laplacian_matrix : exn + matrix F
}.
Arguments get_affinity_matrix {F}.
Arguments get_laplacian_matrix {F}.

(** The first argument of [spectral_embedding] is any Python object;
    [isinstance(Geometry, geom.Geometry)] tells whether it is a Geometry. *)
Inductive pyobj (F : Type) :=
| GeometryObj (g : Geometry F)
| OtherObj.
Arguments GeometryObj {F}.
Arguments OtherObj {F}.

(** The arguments of a call to [eigen_decomposition], in the order of the
    call. *)
Record eigen_request (F : Type) := EigenRequest {
  req_laplacian : matrix F;
  req_n_components : Z;
  req_eigen_solver : solver;
  req_random_state : rng;
  req_eigen_tol : F;
  req_drop_first : bool
}.
Arguments EigenRequest {F}.
Arguments req_laplacian {F}.
Arguments req_n_components {F}.
Arguments req_eigen_solver {F}.
Arguments req_random_state {F}.
Arguments req_eigen_tol {F}.
Arguments req_drop_first {F}.

(** What a run lets the outside observe besides its result: the warnings it
    emits and the calls it makes to its collaborators.  [warnings.warn]
    reports its message and returns, as it does unless the caller has turned
    warnings into errors. *)
Inductive event (F : Type) :=
| EvWarn (msg : string)
| EvGeometry (X : matrix F) (is_affinity : option bool)
| EvEigen (req : eigen_request F).
Arguments EvWarn {F}.
Arguments EvGeometry {F}.
Arguments EvEigen {F}.

(** A run yields the trace of its events and an exception or a value. *)
Definition run (F A : Type) : Type := list (event F) * (exn + A).

Definition ret {F A} (a : A) : run F A := ([], inr a).
Definition raise {F A} (e : exn) : run F A := ([], inl e).
Definition lift {F A} (m : exn + A) : run F A := ([], m).
Definition emit {F} (ev : event F) : run F unit := ([ev], inr ()).

Definition bind_run {F A B} (m : run F A) (k : A → run F B) : run F B :=
  match m with
  | (t, inl e) => (t, inl e)
  | (t, inr a) => let '(t', r) := k a in (t ++ t', r)
  end.

Notation "'do!' x ':=' m 'in' k" := (bind_run m (λ x, k))
  (at level 10, x name, m at level 100, k at level 200).

Definition not_connected_warning : string :=
  "Graph is not fully connected, spectral embedding may not work as expected.".

Section Pipeline.
Context {F : Type} `{Scalar F}.

(** [Mmani.embedding.eigendecomp.eigen_decomposition] is a collaborator of
    this module: it maps a request to an exception or to the eigenvalues
    and the array whose columns are the eigenvectors. *)
Variable eigen_decomposition : eigen_request F → exn + (list F * array2 F).

(** [embedding = diffusion_map.T[n_components::-1] * dd] *)
Definition rescale (diffusion_map : array2 F) (n_components : Z)
           (dd : list F) : exn + array2 F :=
  broadcast_mul
    (slice_rows (transpose diffusion_map) (Some n_components) None (-1)%Z) dd.

(** The two return statements: [embedding[1:n_components].T] and
    [embedding[:n_components].T] *)
Definition select (embedding : array2 F) (n_components : Z)
           (drop_first : bool) : array2 F :=
  if drop_first
  then transpose (slice_rows embedding (Some 1%Z) (Some n_components) 1%Z)
  else transpose (slice_rows embedding None (Some n_components) 1%Z).

Definition spectral_embedding (Geometry : pyobj F) (n_components : Z)
           (eigen_solver : solver) (random_state : seed) (eigen_tol : F)
           (drop_first : bool) : run F (array2 F) :=
  do! random_state := lift (check_random_state random_state) in
  match Geometry with
  | OtherObj => raise RuntimeError
  | GeometryObj g =>
      do! affinity_matrix := lift (get_affinity_matrix g) in
      do! connected := lift (_graph_is_connected affinity_matrix) in
      do! _u := (if negb connected
                 then emit (EvWarn not_connected_warning)
                 else ret ()) in
      do! laplacian := lift (get_laplacian_matrix g) in
      let dd := matrix_diagonal laplacian in
      let req := EigenRequest laplacian n_components eigen_solver
                              random_state eigen_tol drop_first in
      do! _u := emit (EvEigen req) in
      do! res := lift (eigen_decomposition req) in
      let diffusion_map := res.2 in
      do! embedding := lift (rescale diffusion_map n_components dd) in
      ret (select embedding n_components drop_first)
  end.

End Pipeline.

(** ** The eigen-decomposition dispatcher *)

Section Dispatcher.
Context {F : Type} `{Scalar F}.

(** The solvers available in the current build. *)
Variable available : solver → bool.

(** The numerical back end: all the eigenpairs of a matrix, sorted by
    ascending magnitude of the eigenvalue, or a failure to converge. *)
Variable eigensolve : matrix F → solver → rng → F → exn + list (F * list F).

(** Modelled from the spec: [eigen_decomposition] of
    [Mmani.embedding.eigendecomp], which this module imports and calls but
    whose code is not among the sources.  Its contract is
    [decompose(laplacian, k, solver_choice, seed, tolerance, drop_first)
     -> (eigenvalues[k], eigenvectors[N,k])]: it returns exactly [k]
    eigenpairs, those of the [k] smallest-magnitude eigenvalues, sorted
    ascending; requesting [k ≥ N] and asking for a solver that is not
    available are configuration errors; a solver that does not converge
    is a numerical failure. *)
Definition decompose (req : eigen_request F) : exn + (list F * array2 F) :=
  let N := shape0 (req_laplacian req) in
  let k := req_n_components req in
  if decide (Z.of_nat N ≤ k)%Z then inl ConfigurationError
  else if negb (available (req_eigen_solver req)) then inl ConfigurationError
  else
    let! pairs := eigensolve (req_laplacian req) (req_eigen_solver req)
                             (req_random_state req) (req_eigen_tol req) in
    let kept := take (Z.to_nat k) pairs in
    inr (map fst kept, transpose {| ncols := N; rows := map snd kept |}).

End Dispatcher.

(** ** The estimator: [SpectralEmbedding] *)

(** The attributes of an estimator; [embedding_] is absent until [fit] sets
    it. *)
Record SpectralEmbedding (F : Type) := {
  n_components : Z;
  is_affinity : bool;
  radius : option F;
  random_state : seed;
  eigen_solver : solver;
  use_flann : bool;
  path_to_flann : option string;
  cpp_distances : bool;
  embedding_ : option (array2 F)
}.
Arguments n_components {F}.
Arguments is_affinity {F}.
Arguments radius {F}.
Arguments random_state {F}.
Arguments eigen_solver {F}.
Arguments use_flann {F}.
Arguments path_to_flann {F}.
Arguments cpp_distances {F}.
Arguments embedding_ {F}.

(** [SpectralEmbedding.__init__] with its defaults *)
Definition init {F} (n_components : option Z) (is_affinity : option bool)
           (radius : option F) (random_state : option seed)
           (eigen_solver : option solver) (use_flann : option bool)
           (path_to_flann : option string) (cpp_distances : option bool)
  : SpectralEmbedding F :=
  {| n_components := default 2%Z n_components;
     is_affinity := default false is_affinity;
     radius := radius;
     random_state := default SeedNone random_state;
     eigen_solver := default SolverNone eigen_solver;
     use_flann := default false use_flann;
     path_to_flann := path_to_flann;
     cpp_distances := default false cpp_distances;
     embedding_ := None |}.

Definition set_embedding_ {F} (self : SpectralEmbedding F) (e : array2 F)
  : SpectralEmbedding F :=
  {| n_components := n_components self;
     is_affinity := is_affinity self;
     radius := radius self;
     random_state := random_state self;
     eigen_solver := eigen_solver self;
     use_flann := use_flann self;
     path_to_flann := path_to_flann self;
     cpp_distances := cpp_distances self;
     embedding_ := Some e |}.

(** *** Name resolution

    A name that a function reads but never assigns is looked up in the
    globals of its module and then among the builtins. *)

Inductive pyval := PyModule | PyFunction | PyClass | PyConstant (truth : bool).

Definition truthy (v : pyval) : bool :=
  match v with
  | PyConstant b => b
  | _ => true
  end.

(** The names bound at the top level of [spectral_embedding.py]: those
    every module has, its imports, its functions and its class. *)
Definition module_globals : list (string * pyval) :=
  [ ("__name__", PyConstant true); ("__doc__", PyConstant true);
    ("__file__", PyConstant true); ("__package__", PyConstant true);
    ("__builtins__", PyModule);
    ("warnings", PyModule); ("np", PyModule); ("geom", PyModule);
    ("eigen_decomposition", PyFunction); ("sparse", PyModule);
    ("BaseEstimator", PyClass); ("TransformerMixin", PyClass);
    ("check_random_state", PyFunction); ("connected_components", PyFunction);
    ("_graph_connected_component", PyFunction);
    ("_graph_is_connected", PyFunction); ("_set_diag", PyFunction);
    ("spectral_embedding", PyFunction); ("SpectralEmbedding", PyClass) ]%string.

(** The builtin functions, types and constants of Python. *)
Definition builtin_functions : list string :=
     [ "abs"; "all"; "any"; "ascii"; "bin"; "callable"; "chr"; "cmp";
       "compile"; "delattr"; "dir"; "divmod"; "enumerate"; "eval"; "exec";
       "execfile"; "filter"; "format"; "getattr"; "globals"; "hasattr";
       "hash"; "help"; "hex"; "id"; "input"; "isinstance"; "issubclass";
       "iter"; "len"; "locals"; "map"; "max"; "min"; "next"; "oct"; "open";
       "ord"; "pow"; "print"; "range"; "raw_input"; "reduce"; "reload";
       "repr"; "reversed"; "round"; "setattr"; "sorted"; "sum"; "unichr";
       "vars"; "xrange"; "zip"; "__import__" ]%string.

Definition builtin_types : list string :=
     [ "basestring"; "bool"; "buffer"; "bytearray"; "bytes"; "classmethod";
       "complex"; "dict"; "file"; "float"; "frozenset"; "int"; "list";
       "long"; "memoryview"; "object"; "property"; "set"; "slice";
       "staticmethod"; "str"; "super"; "tuple"; "type"; "unicode";
       "BaseException"; "Exception"; "ArithmeticError"; "AssertionError";
       "AttributeError"; "EOFError"; "EnvironmentError"; "FloatingPointError";
       "IOError"; "ImportError"; "IndexError"; "KeyError";
       "KeyboardInterrupt"; "LookupError"; "MemoryError"; "NameError";
       "NotImplementedError"; "OSError"; "OverflowError"; "RuntimeError";
       "StopIteration"; "SyntaxError"; "SystemError"; "SystemExit";
       "TypeError"; "UnboundLocalError"; "ValueError"; "Warning";
       "UserWarning"; "DeprecationWarning"; "RuntimeWarning";
       "ZeroDivisionError" ]%string.

Definition builtin_constants : list (string * pyval) :=
  [ ("True", PyConstant true); ("False", PyConstant false);
    ("None", PyConstant false); ("NotImplemented", PyConstant true);
    ("Ellipsis", PyConstant true); ("__debug__", PyConstant true) ]%string.

Definition builtins : list (string * pyval) :=
  (map (λ n, (n, PyFunction)) builtin_functions
   ++ map (λ n, (n, PyClass)) builtin_types
   ++ builtin_constants)%list.

Fixpoint assoc (name : string) (ns : list (string * pyval)) : option pyval :=
  match ns with
  | [] => None
  | (n, v) :: ns' => if String.eqb n name then Some v else assoc name ns'
  end.

Definition lookup_global (name : string) : option pyval :=
  match assoc name module_globals with
  | Some v => Some v
  | None => assoc name builtins
  end.

Section Estimator.
Context {F : Type} `{Scalar F}.

Variable eigen_decomposition : eigen_request F → exn + (list F * array2 F).

(** The constructor [geom.Geometry(X, neighbors_radius=..., is_affinity=...,
    use_flann=..., path_to_flann=..., cpp_distances=...)] of the
    collaborating module; [is_affinity] is [None] when the call leaves it
    to its default. *)
Variable geom_Geometry :
  matrix F → option F → option bool → bool → option string → bool →
  exn + Geometry F.

(** A method runs on the estimator and leaves it in a new state, also when
    it raises. *)
Definition method (A : Type) : Type := SpectralEmbedding F * run F A.

(** [fit(self, X)].  The call to [spectral_embedding] leaves [eigen_tol] and
    [drop_first] to their defaults, [0.0] and [True]. *)
Definition fit (self : SpectralEmbedding F) (X : matrix F) : method unit :=
  match check_random_state (random_state self) with
  | inl e => (self, raise e)
  | inr random_state =>
      match lookup_global "is_affinity" with
      | None => (self, raise NameError)
      | Some is_affinity =>
          let flag := if truthy is_affinity then Some true else None in
          let built :=
            do! _u := emit (EvGeometry X flag) in
            do! Geometry := lift (geom_Geometry X (radius self) flag
                                    (use_flann self) (path_to_flann self)
                                    (cpp_distances self)) in
            spectral_embedding eigen_decomposition (GeometryObj Geometry)
                               (n_components self) (eigen_solver self)
                               (SeedRandomState random_state) fzero true in
          match built with
          | (t, inl e) => (self, (t, inl e))
          | (t, inr embedding) => (set_embedding_ self embedding, (t, inr ()))
          end
      end
  end.

(** [fit_transform(self, X)]: [self.fit(X)], then [return self.embedding_] *)
Definition fit_transform (self : SpectralEmbedding F) (X : matrix F)
  : method (array2 F) :=
  match fit self X with
  | (self, (t, inl e)) => (self, (t, inl e))
  | (self, (t, inr _)) =>
      match embedding_ self with
      | Some e => (self, (t, inr e))
      | None => (self, (t, inl AttributeError))
      end
  end.

End Estimator.

(** ** Integer scalars, for concrete runs *)

#[global] Instance Z_scalar : Scalar Z := {|
  fzero := 0%Z;
  fadd := Z.add;
  fmul := Z.mul;
  fnonzero := λ x, negb (x =? 0)%Z
|}.

(** * Specifications and concrete data *)

(** ** Graphs and their components *)

(** The edges of the graph a matrix stands for: the entries that are
    [!= 0] of a dense matrix, the stored entries of a sparse one. *)
Definition has_edge {F} `{Scalar F} (g : matrix F) (i j : nat) : Prop :=
  match g with
  | Dense a =>
      ∃ r x, rows a !! i = Some r ∧ r !! j = Some x ∧ fnonzero x = true
  | Sparse s => ∃ v, (i, j, v) ∈ sp_entries s
  end.

Definition symmetric_graph {F} `{Scalar F} (g : matrix F) : Prop :=
  ∀ i j, has_edge g i j → has_edge g j i.

Definition square_matrix {F} (g : matrix F) : Prop :=
  match g with
  | Dense a => square a
  | Sparse s => (sp_shape s).1 = (sp_shape s).2 ∧ wf_spmatrix s
  end.

(** Two nodes are adjacent when an edge joins them in either direction, and
    linked when a path of adjacent nodes leads from one to the other.  The
    linked nodes form the connected components of the graph. *)
Definition adjacent {F} `{Scalar F} (g : matrix F) (i j : nat) : Prop :=
  has_edge g i j ∨ has_edge g j i.

Definition linked {F} `{Scalar F} (g : matrix F) : nat → nat → Prop :=
  rtc (adjacent g).

(** The graph has exactly one connected component: it has a node, and all
    its nodes are linked. *)
Definition one_component {F} `{Scalar F} (g : matrix F) : Prop :=
  0 < shape0 g ∧ ∀ i j, i < shape0 g → j < shape0 g → linked g i j.

(** One round of the loop [grow] on a mask none of whose successors is out
    of range. *)
Definition marks (mask : list bool) (idx : list nat) : list bool :=
  foldr (λ j m, <[j:=true]> m) mask idx.

Definition expand (succs : list bool → list nat) (mask : list bool)
  : list bool :=
  marks mask (succs mask).

(** Every node marked in [m] is marked in [m']. *)
Definition below (m m' : list bool) : Prop :=
  ∀ j, m !! j = Some true → m' !! j = Some true.

(** The exception [fit] ends with: that of [check_random_state] when it
    rejects the estimator's [random_state], the [NameError] of the unbound
    name otherwise. *)
Definition fit_error {F} (self : SpectralEmbedding F) : exn :=
  match check_random_state (random_state self) with
  | inl e => e
  | inr _ => NameError
  end.

(** The trace of a run that gets as far as the dispatcher. *)
Definition pipeline_trace {F} (connected : bool) (req : eigen_request F)
  : list (event F) :=
  (if connected then [] else [EvWarn not_connected_warning]) ++ [EvEigen req].

(** What the run computes from the reply of the dispatcher. *)
Definition finish {F} `{Scalar F} (reply : exn + (list F * array2 F))
           (n_components : Z) (dd : list F) (drop_first : bool)
  : exn + array2 F :=
  let! res := reply in
  let! embedding := rescale res.2 n_components dd in
  inr (select embedding n_components drop_first).

(** ** Concrete graphs

    The star on four nodes (node 0 joined to nodes 1, 2 and 3), with its
    Laplacian [D - A] and the eigenpairs of the Laplacian in ascending
    order; and the graph made of two disjoint edges. *)

Definition star_affinity : array2 Z :=
  Array2 4 [ [0; 1; 1; 1]; [1; 0; 0; 0]; [1; 0; 0; 0]; [1; 0; 0; 0] ]%Z.

Definition star_laplacian : array2 Z :=
  Array2 4 [ [3; -1; -1; -1]; [-1; 1; 0; 0]; [-1; 0; 1; 0]; [-1; 0; 0; 1] ]%Z.

Definition star_spectrum : list (Z * list Z) :=
  [ (0, [1; 1; 1; 1]); (1, [0; 1; -1; 0]); (1, [0; 1; 1; -2]);
    (4, [-3; 1; 1; 1]) ]%Z.

Definition pairs_affinity : array2 Z :=
  Array2 4 [ [0; 1; 0; 0]; [1; 0; 0; 0]; [0; 0; 0; 1]; [0; 0; 1; 0] ]%Z.

Definition pairs_laplacian : array2 Z :=
  Array2 4 [ [1; -1; 0; 0]; [-1; 1; 0; 0]; [0; 0; 1; -1]; [0; 0; -1; 1] ]%Z.

Definition pairs_spectrum : list (Z * list Z) :=
  [ (0, [1; 1; 0; 0]); (0, [0; 0; 1; 1]); (2, [1; -1; 0; 0]);
    (2, [0; 0; 1; -1]) ]%Z.

Definition clique3 : array2 Z :=
  Array2 3 [ [0; 1; 1]; [1; 0; 1]; [1; 1; 0] ]%Z.

(** [a @ v] *)
Definition matvec (a : array2 Z) (v : list Z) : list Z :=
  map (λ r, foldr Z.add 0%Z (zip_with Z.mul r v)) (rows a).

Definition is_eigenpair (a : array2 Z) (p : Z * list Z) : bool :=
  bool_decide (matvec a p.2 = map (Z.mul p.1) p.2).

(** A back end that knows the spectra of the two Laplacians above. *)
Definition table_eigensolve (laplacian : matrix Z) (s : solver) (r : rng)
           (tol : Z) : exn + list (Z * list Z) :=
  match laplacian with
  | Dense a =>
      if decide (rows a = rows star_laplacian) then inr star_spectrum
      else if decide (rows a = rows pairs_laplacian) then inr pairs_spectrum
      else inl NumericalNonConvergence
  | Sparse _ => inl NumericalNonConvergence
  end.

Definition all_available (s : solver) : bool := true.

Definition table_decompose : eigen_request Z → exn + (list Z * array2 Z) :=
  decompose all_available table_eigensolve.

(** A dispatcher that reads [drop_first] as a request for one eigenpair
    more than [n_components]. *)
Definition spare_decompose (req : eigen_request Z)
  : exn + (list Z * array2 Z) :=
  table_decompose
    (EigenRequest (req_laplacian req)
                  (if req_drop_first req
                   then (req_n_components req + 1)%Z
                   else req_n_components req)
                  (req_eigen_solver req) (req_random_state req)
                  (req_eigen_tol req) (req_drop_first req)).

Definition star_geometry : Geometry Z :=
  {| get_affinity_matrix := inr (Dense star_affinity);
     get_laplacian_matrix := inr (Dense star_laplacian) |}.

Definition pairs_geometry : Geometry Z :=
  {| get_affinity_matrix := inr (Dense pairs_affinity);
     get_laplacian_matrix := inr (Dense pairs_laplacian) |}.

(** The Laplacian of the two disjoint edges behind the affinity of the
    star: a Geometry that passes the connectivity check with the same
    Laplacian as [pairs_geometry]. *)
Definition pairs_geometry_connected : Geometry Z :=
  {| get_affinity_matrix := inr (Dense star_affinity);
     get_laplacian_matrix := inr (Dense pairs_laplacian) |}.

(** The Laplacian of the graph with the edge 0 - 1 and the isolated node 2,
    in CSR format: the diagonal entry of node 2 is zero and not stored. *)
Definition isolated_laplacian : spmatrix Z :=
  SpMatrix CSR (3, 3)
           [ (0, 0, 1%Z); (0, 1, (-1)%Z); (1, 0, (-1)%Z); (1, 1, 1%Z) ].

(** A constructor of Geometry objects that takes [X] for the affinity
    matrix and for the Laplacian. *)
Definition plain_geometry (X : matrix Z) (radius : option Z)
           (is_affinity : option bool) (use_flann : bool)
           (path_to_flann : option string) (cpp_distances : bool)
  : exn + Geometry Z :=
  inr {| get_affinity_matrix := inr X; get_laplacian_matrix := inr X |}.

Definition pairs_request : eigen_request Z :=
  EigenRequest (Dense pairs_laplacian) 2%Z SolverNone GlobalRng 0%Z false.

(** The clique on [n] nodes, and two cliques on [a] and [b] nodes with no
    edge between them. *)
Definition clique (n : nat) : array2 Z :=
  Array2 n (replicate n (replicate n 1%Z)).

Definition two_cliques (a b : nat) : array2 Z :=
  Array2 (a + b)
         (replicate a (replicate a 1%Z ++ replicate b 0%Z)
          ++ replicate b (replicate a 0%Z ++ replicate b 1%Z)).

(** ** Further specifications *)

(** The pattern of the entries of a dense array that are [!= 0]. *)
Definition pattern {F} `{Scalar F} (a : array2 F) : list (list bool) :=
  map (map fnonzero) (rows a).

(** The positions of a row of a pattern that hold, counted from [j]. *)
Fixpoint positions_from (j : nat) (r : list bool) : list nat :=
  match r with
  | [] => []
  | b :: r' =>
      if b then j :: positions_from (S j) r' else positions_from (S j) r'
  end.

(** The sparse matrix with the shape of a dense array that stores its
    entries [!= 0], row by row. *)
Definition dense_entries {F} `{Scalar F} (a : array2 F)
  : list (nat * nat * F) :=
  mjoin (imap (λ i r,
                 omap (λ p : nat * F,
                         if fnonzero p.2 then Some (i, p.1, p.2) else None)
                      (imap pair r))
              (rows a)).

Definition to_sparse {F} `{Scalar F} (fmt : sp_format) (a : array2 F)
  : spmatrix F :=
  SpMatrix fmt (nrows a, ncols a) (dense_entries a).

(** The diagonal entry [i] of a sparse matrix is stored exactly once. *)
Definition stored_once {F} (s : spmatrix F) (i : nat) : Prop :=
  length (filter (λ e : nat * nat * F, e.1.1 = i ∧ e.1.2 = i) (sp_entries s))
  = 1.

(** A graph with the one edge from node 0 to node 1, and an array with more
    columns than rows. *)
Definition one_way : array2 Z := Array2 2 [ [0; 1]; [0; 0] ]%Z.

Definition wide : array2 Z := Array2 3 [ [0; 0; 1]; [0; 0; 0] ]%Z.

(** A dispatcher that does not converge, and one whose reply has two
    rows whatever the Laplacian. *)
Definition failing_decompose (req : eigen_request Z)
  : exn + (list Z * array2 Z) :=
  inl NumericalNonConvergence.

Definition short_decompose (req : eigen_request Z)
  : exn + (list Z * array2 Z) :=
  inr ([0%Z], Array2 1 [ [1]; [1] ]%Z).

Definition cliques_geometry : Geometry Z :=
  {| get_affinity_matrix := inr (Dense (two_cliques 2 2));
     get_laplacian_matrix := inr (Dense pairs_laplacian) |}.

(** The star with weights on its edges. *)
Definition star_weights : array2 Z :=
  Array2 4 [ [0; 5; 2; 7]; [5; 0; 0; 0]; [2; 0; 0; 0]; [7; 0; 0; 0] ]%Z.

(** A Geometry over no sample, with dense matrices. *)
Definition empty_geometry : Geometry Z :=
  {| get_affinity_matrix := inr (Dense (Array2 0 []));
     get_laplacian_matrix := inr (Dense (Array2 0 [])) |}.

(** A dispatcher that answers with the first two eigenvectors of the star
    and with eigenvalues that are not theirs. *)
Definition mislabelled_decompose (req : eigen_request Z)
  : exn + (list Z * array2 Z) :=
  inr ([7; 9]%Z, Array2 2 [ [1; 0]; [1; 1]; [1; -1]; [1; 0] ]%Z).

(** A matrix whose stored entries fill the first row of an 8 x 8 matrix:
    they lie on eight diagonals. *)
Definition first_row : spmatrix Z :=
  SpMatrix COO (8, 8)
           [ (0, 0, 1%Z); (0, 1, 1%Z); (0, 2, 1%Z); (0, 3, 1%Z);
             (0, 4, 1%Z); (0, 5, 1%Z); (0, 6, 1%Z); (0, 7, 1%Z) ].

(** A COO matrix that stores the entries (0, 0) and (1, 0) twice. *)
Definition doubled : spmatrix Z :=
  SpMatrix COO (2, 2)
           [ (0, 0, 1%Z); (0, 0, 2%Z); (1, 0, 1%Z); (1, 0, 2%Z);
             (1, 1, 4%Z) ].

(** * Properties *)

(** ** Slices *)

Lemma omap_lookup_seq {A} (l : list A) (a len : nat) :
  a + len ≤ length l →
  omap (λ i, l !! i) (seq a len) = take len (drop a l).
Proof.
  revert a. induction len as [|len IH]; intros a Hle; simpl.
  - by rewrite take_0.
  - destruct (lookup_lt_is_Some_2 l a) as [x Hx]; [lia|].
    rewrite Hx. rewrite (drop_S l x a Hx). simpl.
    f_equal. apply IH. lia.
Qed.

Lemma omap_reverse {A B} (f : A → option B) (l : list A) :
  omap f (reverse l) = reverse (omap f l).
Proof.
  induction l as [|x l IH]; [done|].
  rewrite reverse_cons, omap_app, IH. simpl.
  destruct (f x); simpl; [by rewrite reverse_cons | by rewrite app_nil_r].
Qed.


Lemma descending_indices (s : nat) :
  map (λ i, Z.to_nat (Z.of_nat s + Z.of_nat i * -1)%Z) (seq 0 (S s))
  = reverse (seq 0 (S s)).
Proof.
  apply list_eq. intros i.
  destruct (decide (i < S s)) as [Hi|Hi].
  - rewrite reverse_lookup by (rewrite length_seq; lia).
    rewrite length_seq.
    rewrite list_lookup_fmap.
    rewrite !lookup_seq_lt by lia. simpl. f_equal. lia.
  - rewrite !lookup_ge_None_2; [done| |].
    + rewrite length_reverse, length_seq. lia.
    + rewrite length_map, length_seq. lia.
Qed.

Lemma slice_adjust_nonneg (n : nat) (neg : bool) (i : Z) :
  (0 ≤ i)%Z →
  slice_adjust n neg i
  = if neg then Z.min i (Z.of_nat n - 1) else Z.min i (Z.of_nat n).
Proof.
  intros Hi. unfold slice_adjust.
  assert ((i <? 0)%Z = false) as -> by lia.
  assert ((i <? 0)%Z = false) as -> by lia.
  destruct (Z.of_nat n <=? i)%Z eqn:E, neg; lia.
Qed.

(** [l[k::-1]] lists the first [k + 1] items backwards. *)
Lemma py_slice_backwards {A} (l : list A) (k : Z) :
  (0 ≤ k)%Z →
  py_slice l (Some k) None (-1)%Z = reverse (take (Z.to_nat k + 1) l).
Proof.
  intros Hk. unfold py_slice, slice_indices.
  change (-1 <? 0)%Z with true. cbv iota.
  rewrite slice_adjust_nonneg by done.
  set (n := length l).
  destruct (decide (n = 0)) as [Hn|Hn].
  { replace (Z.min k (Z.of_nat n - 1)) with (-1)%Z by lia.
    apply length_zero_iff_nil in Hn. rewrite Hn. simpl.
    by rewrite take_nil. }
  set (s := Nat.min (Z.to_nat k) (n - 1)).
  replace (Z.min k (Z.of_nat n - 1)) with (Z.of_nat s) by lia.
  assert ((-1 <? Z.of_nat s)%Z = true) as -> by lia.
  change (Z.opp (-1)%Z) with 1%Z. rewrite Z.div_1_r.
  replace (Z.of_nat s - -1 - 1 + 1)%Z with (Z.of_nat (S s)) by lia.
  rewrite Nat2Z.id, descending_indices, omap_reverse.
  rewrite omap_lookup_seq by (fold n; lia).
  rewrite drop_0. f_equal.
  destruct (decide (Z.to_nat k ≤ n - 1)).
  - f_equal. lia.
  - rewrite !take_ge; [done | fold n; lia | fold n; lia].
Qed.

Lemma ascending_indices (a len : nat) :
  map (λ i, Z.to_nat (Z.of_nat a + Z.of_nat i * 1)%Z) (seq 0 len)
  = seq a len.
Proof.
  apply list_eq. intros i.
  rewrite list_lookup_fmap.
  destruct (decide (i < len)) as [Hi|Hi].
  - rewrite !lookup_seq_lt by lia. simpl. f_equal. lia.
  - rewrite !lookup_seq_ge by lia. done.
Qed.

(** [l[:k]] *)
Lemma py_slice_prefix {A} (l : list A) (k : Z) :
  (0 ≤ k)%Z →
  py_slice l None (Some k) 1%Z = take (Z.to_nat k) l.
Proof.
  intros Hk. unfold py_slice, slice_indices.
  change (1 <? 0)%Z with false. cbv iota.
  rewrite slice_adjust_nonneg by done.
  set (n := length l).
  set (s := Nat.min (Z.to_nat k) n).
  replace (Z.min k (Z.of_nat n)) with (Z.of_nat s) by lia.
  destruct (0 <? Z.of_nat s)%Z eqn:E;
    [apply Z.ltb_lt in E | apply Z.ltb_ge in E].
  - replace ((Z.of_nat s - 0 - 1) `div` 1 + 1)%Z with (Z.of_nat s)
      by (rewrite Z.div_1_r; lia).
    rewrite Nat2Z.id. change 0%Z with (Z.of_nat 0).
    rewrite ascending_indices, omap_lookup_seq by (fold n; lia).
    rewrite drop_0.
    destruct (decide (Z.to_nat k ≤ n)).
    + f_equal. lia.
    + rewrite !take_ge; [done | fold n; lia | fold n; lia].
  - simpl. symmetry. apply length_zero_iff_nil.
    rewrite length_take. fold n. lia.
Qed.

(** [l[1:k]] *)
Lemma py_slice_from_1 {A} (l : list A) (k : Z) :
  (0 ≤ k)%Z →
  py_slice l (Some 1%Z) (Some k) 1%Z = drop 1 (take (Z.to_nat k) l).
Proof.
  intros Hk. unfold py_slice, slice_indices.
  change (1 <? 0)%Z with false. cbv iota.
  rewrite !slice_adjust_nonneg by lia.
  set (n := length l).
  set (hi := Nat.min (Z.to_nat k) n).
  replace (Z.min k (Z.of_nat n)) with (Z.of_nat hi) by lia.
  replace (Z.min 1 (Z.of_nat n)) with (Z.of_nat (Nat.min 1 n)) by lia.
  assert (hi ≤ n ∧ hi ≤ Z.to_nat k ∧ (hi = Z.to_nat k ∨ hi = n))
    as Hhi by (unfold hi; lia).
  clearbody hi.
  destruct (Z.of_nat (Nat.min 1 n) <? Z.of_nat hi)%Z eqn:E;
    [apply Z.ltb_lt in E | apply Z.ltb_ge in E].
  - replace ((Z.of_nat hi - Z.of_nat (Nat.min 1 n) - 1) `div` 1 + 1)%Z
      with (Z.of_nat (hi - 1)) by (rewrite Z.div_1_r; lia).
    rewrite Nat2Z.id, ascending_indices.
    replace (Nat.min 1 n) with 1 by lia.
    rewrite omap_lookup_seq by (fold n; lia).
    rewrite skipn_firstn_comm.
    destruct (decide (Z.to_nat k ≤ n)).
    + f_equal. lia.
    + rewrite !take_ge; [done | |]; rewrite length_drop; fold n; lia.
  - simpl. symmetry. apply length_zero_iff_nil.
    rewrite length_drop, length_take. fold n. lia.
Qed.

(** ** Arrays *)

Section Arrays.
Context {F : Type}.



Lemma nrows_transpose (a : array2 F) : nrows (transpose a) = ncols a.
Proof. unfold nrows, transpose. simpl. by rewrite length_map, length_seq. Qed.



End Arrays.

(** ** The pipeline *)

Section PipelineFacts.
Context {F : Type} `{Scalar F}.

Variable eigen_decomposition : eigen_request F → exn + (list F * array2 F).

Lemma rescale_rows (diffusion_map : array2 F) (k : Z) (dd : list F) :
  (0 ≤ k)%Z → nrows diffusion_map = length dd →
  rescale diffusion_map k dd
  = inr {| ncols := nrows diffusion_map;
           rows := map (λ v, zip_with fmul v dd)
                       (reverse (take (Z.to_nat k + 1)
                                      (rows (transpose diffusion_map)))) |}.
Proof.
  intros Hk Hdd. unfold rescale, broadcast_mul, slice_rows. simpl.
  rewrite decide_True by done. by rewrite py_slice_backwards.
Qed.

Lemma select_eq (embedding : array2 F) (k : Z) (drop_first : bool) :
  (0 ≤ k)%Z →
  select embedding k drop_first
  = transpose {| ncols := ncols embedding;
                 rows := if drop_first
                         then drop 1 (take (Z.to_nat k) (rows embedding))
                         else take (Z.to_nat k) (rows embedding) |}.
Proof.
  intros Hk. unfold select, slice_rows.
  destruct drop_first.
  - by rewrite py_slice_from_1.
  - by rewrite py_slice_prefix.
Qed.

Lemma select_shape (embedding : array2 F) (k : Z) (drop_first : bool) :
  (0 ≤ k)%Z →
  nrows (select embedding k drop_first) = ncols embedding
  ∧ ncols (select embedding k drop_first)
    = (if drop_first
       then Nat.min (Z.to_nat k) (nrows embedding) - 1
       else Nat.min (Z.to_nat k) (nrows embedding)).
Proof.
  intros Hk. rewrite select_eq by done. rewrite nrows_transpose. simpl.
  split; [done|]. unfold nrows. simpl.
  destruct drop_first; rewrite ?length_drop, length_take; lia.
Qed.

Lemma spectral_embedding_run (g : Geometry F) (k : Z) (s : solver)
      (sd : seed) (tol : F) (drop_first : bool)
      (rs : rng) (A L : matrix F) (b : bool) :
  check_random_state sd = inr rs →
  get_affinity_matrix g = inr A →
  _graph_is_connected A = inr b →
  get_laplacian_matrix g = inr L →
  let req := EigenRequest L k s rs tol drop_first in
  spectral_embedding eigen_decomposition (GeometryObj g) k s sd tol drop_first
  = (pipeline_trace b req,
     finish (eigen_decomposition req) k (matrix_diagonal L) drop_first).
Proof.
  intros Hrs HA Hb HL req.
  unfold spectral_embedding, pipeline_trace, finish, bind_run, lift.
  rewrite Hrs, HA, Hb, HL. fold req.
  destruct b; simpl;
    (destruct (eigen_decomposition req) as [e|res]; simpl; [done|]);
    (destruct (rescale res.2 k (matrix_diagonal L)); done).
Qed.

Lemma spectral_embedding_inr (G : pyobj F) (k : Z) (s : solver) (sd : seed)
      (tol : F) (drop_first : bool) (t : list (event F)) (E : array2 F) :
  spectral_embedding eigen_decomposition G k s sd tol drop_first = (t, inr E) →
  ∃ g rs A b L,
    G = GeometryObj g
    ∧ check_random_state sd = inr rs
    ∧ get_affinity_matrix g = inr A
    ∧ _graph_is_connected A = inr b
    ∧ get_laplacian_matrix g = inr L.
Proof.
  unfold spectral_embedding, bind_run, lift, raise.
  destruct (check_random_state sd) as [|rs] eqn:Hrs; [congruence|].
  destruct G as [g|]; [|congruence].
  destruct (get_affinity_matrix g) as [|A] eqn:HA; [congruence|].
  destruct (_graph_is_connected A) as [|b] eqn:Hb; [congruence|].
  destruct (get_laplacian_matrix g) as [|L] eqn:HL.
  { destruct b; simpl; congruence. }
  intros _. by exists g, rs, A, b, L.
Qed.

End PipelineFacts.

(** ** Boolean masks *)

Lemma count_true_cons (b : bool) (m : list bool) :
  count_true (b :: m) = (if b then 1 else 0) + count_true m.
Proof.
  unfold count_true. rewrite filter_cons.
  destruct b; case_decide; simpl; congruence.
Qed.

Lemma count_true_le (m : list bool) : count_true m ≤ length m.
Proof.
  induction m as [|b m IH]; [done|].
  rewrite count_true_cons. destruct b; simpl; lia.
Qed.

Lemma count_true_all (m : list bool) :
  count_true m = length m ↔ ∀ j, j < length m → m !! j = Some true.
Proof.
  induction m as [|b m IH].
  - split; [intros _ j Hj; simpl in Hj; lia | done].
  - rewrite count_true_cons. pose proof (count_true_le m) as Hle.
    split.
    + intros Hc j Hj. destruct b; simpl in Hc; [|lia].
      destruct j as [|j]; [done|]. simpl. apply IH; [lia|]. simpl in Hj. lia.
    + intros Hall. pose proof (Hall 0 ltac:(simpl; lia)) as H0.
      simpl in H0. injection H0 as ->. simpl. f_equal.
      apply IH. intros j Hj. apply (Hall (S j)). simpl. lia.
Qed.

Lemma count_true_pos (m : list bool) (j : nat) :
  m !! j = Some true → 1 ≤ count_true m.
Proof.
  revert j. induction m as [|b m IH]; intros j Hj; [done|].
  rewrite count_true_cons. destruct j as [|j]; simpl in Hj.
  - injection Hj as ->. lia.
  - specialize (IH _ Hj). lia.
Qed.

Lemma count_true_mono (m m' : list bool) :
  length m = length m' → below m m' →
  count_true m ≤ count_true m' ∧ (count_true m' ≤ count_true m → m = m').
Proof.
  revert m'. induction m as [|b m IH]; intros [|b' m'] Hlen Hbelow;
    simpl in Hlen; try lia.
  - done.
  - rewrite !count_true_cons.
    destruct (IH m') as [IH1 IH2]; [lia| |].
    { intros j Hj. apply (Hbelow (S j)). exact Hj. }
    pose proof (Hbelow 0) as H0. simpl in H0.
    destruct b, b'; simpl.
    + split; [lia|]. intros Hc. f_equal. apply IH2. lia.
    + specialize (H0 eq_refl). congruence.
    + split; [lia|]. intros Hc. lia.
    + split; [lia|]. intros Hc. f_equal. apply IH2. lia.
Qed.

Lemma length_marks (mask : list bool) (idx : list nat) :
  length (marks mask idx) = length mask.
Proof.
  induction idx as [|a idx IH]; simpl; [done|]. by rewrite length_insert.
Qed.

Lemma lookup_marks (mask : list bool) (idx : list nat) (j : nat) :
  marks mask idx !! j = Some true
  ↔ mask !! j = Some true ∨ (j ∈ idx ∧ j < length mask).
Proof.
  induction idx as [|a idx IH]; simpl.
  - split; [by left|]. intros [?|[Hin _]]; [done|]. by apply elem_of_nil in Hin.
  - destruct (decide (a = j)) as [->|Hne].
    + destruct (decide (j < length mask)) as [Hlt|Hge].
      * rewrite list_lookup_insert_eq by (rewrite length_marks; lia).
        split; [|done]. intros _. right. split; [left|done].
      * rewrite list_insert_ge by (rewrite length_marks; lia).
        rewrite IH. split.
        -- intros [?|[? ?]]; [by left|lia].
        -- intros [?|[? ?]]; [by left|lia].
    + rewrite list_lookup_insert_ne by done. rewrite IH.
      rewrite elem_of_cons. split.
      * intros [?|[? ?]]; [by left|right; split; [by right|done]].
      * intros [?|[[?|?] ?]]; [by left|congruence|by right].
Qed.

Lemma mark_marks (mask : list bool) (idx : list nat) :
  Forall (λ j, j < length mask) idx → mark mask idx = inr (marks mask idx).
Proof. intros Hall. unfold mark. by rewrite decide_True. Qed.

(** ** The loop [grow] *)

Section Grow.
Variable n : nat.
Variable succs : list bool → list nat.
Variable E : nat → nat → Prop.

Hypothesis succs_spec :
  ∀ m j, length m = n → (j ∈ succs m ↔ ∃ i, m !! i = Some true ∧ E i j).
Hypothesis E_bound : ∀ i j, E i j → j < n.

Lemma length_expand (m : list bool) : length (expand succs m) = length m.
Proof. apply length_marks. Qed.

Lemma lookup_expand (m : list bool) (j : nat) :
  length m = n →
  expand succs m !! j = Some true
  ↔ m !! j = Some true ∨ ∃ i, m !! i = Some true ∧ E i j.
Proof.
  intros Hlen. unfold expand. rewrite lookup_marks, succs_spec by done.
  split.
  - intros [?|[? _]]; [by left | by right].
  - intros [?|(i & Hi & HE)]; [by left|]. right.
    split; [by exists i|]. rewrite Hlen. by eapply E_bound.
Qed.

Lemma mark_expand (m : list bool) :
  length m = n → mark m (succs m) = inr (expand succs m).
Proof.
  intros Hlen. apply mark_marks, Forall_forall. intros j Hj.
  apply succs_spec in Hj as (i & _ & HE); [|done].
  rewrite Hlen. by eapply E_bound.
Qed.

Lemma below_expand (m : list bool) : below m (expand succs m).
Proof. intros j Hj. apply lookup_marks. by left. Qed.

Lemma length_iter_expand (t : nat) (m : list bool) :
  length (Nat.iter t (expand succs) m) = length m.
Proof.
  induction t as [|t IH]; simpl; [done|]. by rewrite length_expand.
Qed.

Lemma below_iter_expand (t : nat) (m : list bool) :
  below m (Nat.iter t (expand succs) m).
Proof.
  induction t as [|t IH]; simpl; [by intros j Hj|].
  intros j Hj. by apply below_expand, IH.
Qed.

(** The loop returns after at most [fuel] rounds; it stops at a mask that a
    further round leaves as it is, unless every round added a node. *)
Lemma grow_spec (fuel : nat) (m : list bool) :
  length m = n →
  ∃ res t,
    grow succs fuel m = inr res
    ∧ t ≤ fuel
    ∧ res = Nat.iter t (expand succs) m
    ∧ (expand succs res = res ∨ count_true m + fuel ≤ count_true res).
Proof.
  revert m. induction fuel as [|fuel IH]; intros m Hlen.
  - exists m, 0. simpl. split; [done|]. split; [lia|]. split; [done|].
    right. lia.
  - simpl. rewrite mark_expand by done. simpl.
    destruct (count_true_mono m (expand succs m)) as [Hle Heq];
      [by rewrite length_expand | apply below_expand |].
    case_decide as Hc.
    + exists (expand succs m), 1. simpl.
      split; [done|]. split; [lia|]. split; [done|].
      left. pose proof (Heq Hc) as Hm. rewrite <- Hm. by symmetry.
    + destruct (IH (expand succs m)) as (res & t & Hg & Ht & Hres & Hor);
        [by rewrite length_expand|].
      exists res, (S t). rewrite Nat.iter_succ_r.
      split; [done|]. split; [lia|]. split; [done|].
      destruct Hor as [?|?]; [by left|right; lia].
Qed.

Section Reach.
Variable start : nat.

Lemma iter_expand_sound (t : nat) (m : list bool) :
  length m = n →
  (∀ j, m !! j = Some true → rtc E start j) →
  ∀ j, Nat.iter t (expand succs) m !! j = Some true → rtc E start j.
Proof.
  intros Hlen Hm. induction t as [|t IH]; simpl; [done|].
  intros j Hj. apply lookup_expand in Hj;
    [|by rewrite length_iter_expand].
  destruct Hj as [Hj|(i & Hi & HE)]; [by apply IH|].
  eapply rtc_r; [by apply IH|done].
Qed.

Lemma closed_complete (res : list bool) :
  length res = n → expand succs res = res → res !! start = Some true →
  ∀ j, rtc E start j → res !! j = Some true.
Proof.
  intros Hlen Hfix Hstart. apply rtc_ind_r; [done|].
  intros i j Hi HE IH.
  rewrite <- Hfix. apply lookup_expand; [done|]. right. by exists i.
Qed.

(** Started from the mask that holds [start] alone and given [n] rounds,
    the loop returns the nodes that a path of edges reaches from [start]:
    it comes to rest within its [n] rounds. *)
Lemma grow_component :
  start < n →
  ∃ res t,
    grow succs n (<[start:=true]> (replicate n false)) = inr res
    ∧ length res = n
    ∧ t ≤ n
    ∧ res = Nat.iter t (expand succs) (<[start:=true]> (replicate n false))
    ∧ expand succs res = res
    ∧ ∀ j, res !! j = Some true ↔ rtc E start j.
Proof.
  intros Hstart.
  set (m0 := <[start:=true]> (replicate n false)).
  assert (length m0 = n) as Hlen
    by (unfold m0; by rewrite length_insert, length_replicate).
  assert (m0 !! start = Some true) as Hm0.
  { unfold m0. apply list_lookup_insert_eq. by rewrite length_replicate. }
  destruct (grow_spec n m0 Hlen) as (res & t & Hg & Ht & Hres & Hor).
  assert (length res = n) as Hlenr
    by (rewrite Hres, length_iter_expand; done).
  assert (expand succs res = res) as Hfix.
  { destruct Hor as [?|Hc]; [done|].
    pose proof (count_true_pos _ _ Hm0). pose proof (count_true_le res). lia. }
  exists res, t. do 5 (split; [done|]). intros j. split.
  - intros Hj. rewrite Hres in Hj.
    eapply iter_expand_sound; [exact Hlen| |exact Hj].
    intros j' Hj'. unfold m0 in Hj'.
    destruct (decide (start = j')) as [->|Hne]; [done|].
    rewrite list_lookup_insert_ne in Hj' by done.
    apply lookup_replicate in Hj' as [? _]. done.
  - apply closed_complete; [done..|].
    rewrite Hres. by apply below_iter_expand.
Qed.

End Reach.
End Grow.

(** ** Connected components *)

Section ConnectivityFacts.
Context {F : Type} `{Scalar F}.

Lemma elem_of_select_rows {A} (mask : list bool) (rs : list A) (r : A) :
  r ∈ select_rows mask rs ↔ ∃ i, mask !! i = Some true ∧ rs !! i = Some r.
Proof.
  revert rs. induction mask as [|b mask IH]; intros rs.
  - simpl. split; [by intros ?%elem_of_nil | by intros (i & ? & _)].
  - destruct rs as [|r0 rs].
    + simpl. split; [by intros ?%elem_of_nil | by intros (i & _ & ?)].
    + simpl. destruct b.
      * rewrite elem_of_cons, IH. split.
        -- intros [->|(i & ? & ?)]; [by exists 0 | by exists (S i)].
        -- intros ([|i] & Hm & Hr); simpl in *; [left; congruence|].
           right. by exists i.
      * rewrite IH. split.
        -- intros (i & ? & ?). by exists (S i).
        -- intros ([|i] & Hm & Hr); simpl in *; [congruence|]. by exists i.
Qed.

Lemma elem_of_nonzero_from (b : nat) (r : list F) (j : nat) :
  j ∈ nonzero_from b r
  ↔ ∃ x, b ≤ j ∧ r !! (j - b) = Some x ∧ fnonzero x = true.
Proof.
  revert b. induction r as [|y r IH]; intros b; simpl.
  - split; [by intros ?%elem_of_nil | by intros (x & _ & ? & _)].
  - assert (j ∈ nonzero_from (S b) r
            ↔ ∃ x, b < j ∧ (y :: r) !! (j - b) = Some x ∧ fnonzero x = true)
      as Htail.
    { rewrite IH. split.
      - intros (x & ? & Hx & ?). exists x. split; [lia|]. split; [|done].
        replace (j - b) with (S (j - S b)) by lia. done.
      - intros (x & ? & Hx & ?). exists x. split; [lia|]. split; [|done].
        replace (j - b) with (S (j - S b)) in Hx by lia. done. }
    destruct (fnonzero y) eqn:Hy.
    + rewrite elem_of_cons, Htail. split.
      * intros [->|(x & ? & ? & ?)].
        -- exists y. rewrite Nat.sub_diag. done.
        -- exists x. split; [lia|done].
      * intros (x & Hle & Hx & Hnz).
        destruct (decide (j = b)) as [->|Hne]; [by left|].
        right. exists x. split; [lia|done].
    + rewrite Htail. split.
      * intros (x & ? & ? & ?). exists x. split; [lia|done].
      * intros (x & Hle & Hx & Hnz).
        destruct (decide (j = b)) as [->|Hne].
        -- rewrite Nat.sub_diag in Hx. simpl in Hx. congruence.
        -- exists x. split; [lia|done].
Qed.

Lemma elem_of_node_to_add (a : array2 F) (m : list bool) (j : nat) :
  j ∈ node_to_add a m ↔ ∃ i, m !! i = Some true ∧ has_edge (Dense a) i j.
Proof.
  unfold node_to_add. rewrite list_elem_of_bind. split.
  - intros (r & Hj & Hr).
    apply elem_of_select_rows in Hr as (i & Hm & Hr).
    apply elem_of_nonzero_from in Hj as (x & _ & Hx & Hnz).
    rewrite Nat.sub_0_r in Hx. exists i. split; [done|]. by exists r, x.
  - intros (i & Hm & r & x & Hr & Hx & Hnz). exists r. split.
    + apply elem_of_nonzero_from. exists x. rewrite Nat.sub_0_r.
      split; [lia|done].
    + apply elem_of_select_rows. by exists i.
Qed.

Lemma dense_edge_bound (a : array2 F) (i j : nat) :
  square a → has_edge (Dense a) i j → j < nrows a.
Proof.
  intros [Hwf Hsq] (r & x & Hr & Hx & _).
  apply list_elem_of_lookup_2 in Hr.
  eapply Forall_forall in Hwf; [|exact Hr]. simpl in Hwf.
  apply lookup_lt_Some in Hx. lia.
Qed.

Lemma elem_of_weak_succs (s : spmatrix F) (m : list bool) (j : nat) :
  j ∈ weak_succs s m ↔ ∃ i, m !! i = Some true ∧ adjacent (Sparse s) i j.
Proof.
  unfold weak_succs. rewrite list_elem_of_bind. split.
  - intros ([[r c] v] & Hj & He). simpl in Hj.
    apply elem_of_app in Hj as [Hj|Hj]; case_bool_decide as Hm;
      try (by apply elem_of_nil in Hj);
      apply list_elem_of_singleton in Hj as ->.
    + exists r. split; [done|]. left. by exists v.
    + exists c. split; [done|]. right. by exists v.
  - intros (i & Hm & [[v He]|[v He]]).
    + exists (i, j, v). split; [|done]. simpl.
      apply elem_of_app. left. rewrite bool_decide_eq_true_2 by done.
      by apply list_elem_of_singleton.
    + exists (j, i, v). split; [|done]. simpl.
      apply elem_of_app. right. rewrite bool_decide_eq_true_2 by done.
      by apply list_elem_of_singleton.
Qed.

Lemma sparse_adjacent_bound (s : spmatrix F) (i j : nat) :
  square_matrix (Sparse s) → adjacent (Sparse s) i j → j < (sp_shape s).1.
Proof.
  intros [Hsq Hwf] [[v He]|[v He]];
    (eapply Forall_forall in Hwf; [|exact He]); simpl in Hwf; lia.
Qed.

Lemma linked_sym (g : matrix F) (i j : nat) : linked g i j → linked g j i.
Proof.
  unfold linked. induction 1 as [|i k j Hik _ IH]; [done|].
  eapply rtc_r; [exact IH|]. destruct Hik; [by right | by left].
Qed.

Lemma linked_symmetric_graph (g : matrix F) (i j : nat) :
  symmetric_graph g → linked g i j ↔ rtc (has_edge g) i j.
Proof.
  intros Hsym. split.
  - apply rtc_subrel. intros x y [?|?]; [done | by apply Hsym].
  - apply rtc_subrel. intros x y ?. by left.
Qed.

(** All the nodes are linked as soon as node 0 is linked to each of
    them. *)
Lemma one_component_from_0 (g : matrix F) :
  0 < shape0 g →
  one_component g ↔ ∀ j, j < shape0 g → linked g 0 j.
Proof.
  intros Hn. split.
  - intros [_ Hall] j Hj. by apply Hall.
  - intros Hall. split; [done|]. intros i j Hi Hj.
    unfold linked. etrans; [apply linked_sym, Hall, Hi | apply Hall, Hj].
Qed.

(** The dense search from node 0. *)
Lemma dense_component (a : array2 F) :
  square a → 0 < nrows a →
  ∃ cc t,
    _graph_connected_component a 0 = inr cc
    ∧ length cc = nrows a
    ∧ t ≤ nrows a
    ∧ cc = Nat.iter t (expand (node_to_add a))
                    (<[0:=true]> (replicate (nrows a) false))
    ∧ expand (node_to_add a) cc = cc
    ∧ ∀ j, cc !! j = Some true ↔ rtc (has_edge (Dense a)) 0 j.
Proof.
  intros Hsq Hn. unfold _graph_connected_component.
  rewrite decide_True by done.
  apply (grow_component (nrows a) (node_to_add a) (has_edge (Dense a))).
  - intros m j _. apply elem_of_node_to_add.
  - intros i j. by apply dense_edge_bound.
  - done.
Qed.

Lemma dense_is_connected (a : array2 F) :
  square a → symmetric_graph (Dense a) →
  _graph_is_connected (Dense a) = inr true ↔ one_component (Dense a).
Proof.
  intros Hsq Hsym. simpl.
  destruct (decide (0 < nrows a)) as [Hn|Hn].
  - destruct (dense_component a Hsq Hn)
      as (cc & t & -> & Hlen & _ & _ & _ & Hcc). simpl.
    rewrite one_component_from_0 by done. simpl.
    split.
    + intros [= Hb]. apply bool_decide_eq_true in Hb.
      rewrite <- Hlen in Hb. intros j Hj.
      apply linked_symmetric_graph, Hcc; [done|].
      apply count_true_all; [done|lia].
    + intros Hall. f_equal. apply bool_decide_eq_true.
      rewrite <- Hlen. apply count_true_all. intros j Hj.
      apply Hcc, linked_symmetric_graph; [done|]. apply Hall. lia.
  - unfold _graph_connected_component. rewrite decide_False by done. simpl.
    split; [done|]. intros [Hpos _]. simpl in Hpos. lia.
Qed.

(** The component count of the sparse path. *)
Lemma label_components_spec (s : spmatrix F) (nodes : list nat) :
  square_matrix (Sparse s) →
  let n := (sp_shape s).1 in
  Forall (λ i, i < n) nodes →
  ∀ seen count, length seen = n →
  ∃ c, label_components s n nodes seen count = inr c
       ∧ count ≤ c
       ∧ (c = count ↔ ∀ i, i ∈ nodes → seen !! i = Some true).
Proof.
  intros Hsq n Hnodes.
  induction Hnodes as [|i nodes Hi Hnodes IH]; intros seen count Hseen.
  - exists count. simpl. split; [done|]. split; [lia|].
    split; [by intros _ i ?%elem_of_nil | done].
  - simpl. case_bool_decide as Hs.
    + destruct (IH seen count Hseen) as (c & -> & Hle & Hc).
      exists c. split; [done|]. split; [done|]. rewrite Hc. split.
      * intros Hall j [->|?]%elem_of_cons; [done|by apply Hall].
      * intros Hall j Hj. apply Hall. by right.
    + destruct (grow_component n (weak_succs s) (adjacent (Sparse s)))
        with (start := i) as (comp & t & -> & Hlen & _); try done.
      { intros m j _. apply elem_of_weak_succs. }
      { intros x y. by apply sparse_adjacent_bound. }
      simpl.
      destruct (IH (zip_with orb seen comp) (S count)) as (c & -> & Hle & Hc).
      { rewrite length_zip_with. lia. }
      exists c. split; [done|]. split; [lia|]. split; [lia|].
      intros Hall. exfalso. apply Hs, Hall. by left.
Qed.

Lemma sparse_is_connected (s : spmatrix F) :
  square_matrix (Sparse s) →
  _graph_is_connected (Sparse s) = inr true ↔ one_component (Sparse s).
Proof.
  intros Hsq. pose proof Hsq as [Hshape Hwf].
  unfold _graph_is_connected, connected_components.
  rewrite decide_True by done.
  destruct (decide (0 < (sp_shape s).1)) as [Hpos|Hpos].
  - rewrite one_component_from_0 by done.
    pose proof (grow_component (sp_shape s).1 (weak_succs s)
                  (adjacent (Sparse s))) as Hgrow.
    destruct Hgrow with (start := 0)
      as (comp & t & Hg & Hlen & _ & _ & _ & Hcomp); try done.
    { intros m j _. apply elem_of_weak_succs. }
    { intros x y. by apply sparse_adjacent_bound. }
    pose proof (label_components_spec s (seq 1 ((sp_shape s).1 - 1)) Hsq)
      as Hlabel.
    destruct Hlabel with
      (seen := zip_with orb (replicate (sp_shape s).1 false) comp) (count := 1)
      as (c & Hc & Hle & Hiff).
    { apply Forall_forall. intros i Hi%elem_of_seq. lia. }
    { rewrite length_zip_with, length_replicate. lia. }
    assert (∀ i, i < (sp_shape s).1 →
              zip_with orb (replicate (sp_shape s).1 false) comp !! i
              = Some true
              ↔ linked (Sparse s) 0 i) as Hseen.
    { intros i Hi. unfold linked. rewrite <- Hcomp. rewrite lookup_zip_with.
      rewrite lookup_replicate_2 by lia. simpl.
      destruct (comp !! i) as [b|]; simpl; [|done].
      split; congruence. }
    simpl shape0.
    replace (seq 0 (sp_shape s).1) with (0 :: seq 1 ((sp_shape s).1 - 1)).
    2:{ destruct (sp_shape s).1; [lia|]. simpl. by rewrite Nat.sub_0_r. }
    cbn [label_components].
    rewrite bool_decide_eq_false_2.
    2:{ rewrite lookup_replicate_2 by done. congruence. }
    rewrite Hg. cbn [bind_exn]. rewrite Hc. cbn [bind_exn fst].
    split.
    + intros [= Hb]. apply bool_decide_eq_true in Hb.
      intros j Hj.
      destruct (decide (j = 0)) as [->|Hne]; [by apply rtc_refl|].
      apply Hseen; [done|]. apply Hiff; [done|]. apply elem_of_seq. lia.
    + intros Hall. f_equal. apply bool_decide_eq_true. apply Hiff.
      intros i Hi%elem_of_seq. apply Hseen; [lia|]. apply Hall. lia.
  - assert ((sp_shape s).1 = 0) as -> by lia. simpl.
    split; [done|]. intros [Hp _]. simpl in Hp. lia.
Qed.

End ConnectivityFacts.

(** ** Conditioning *)

Lemma elem_of_insert_unique (x y : Z) (l : list Z) :
  y ∈ insert_unique x l ↔ y = x ∨ y ∈ l.
Proof.
  induction l as [|z l IH]; simpl.
  - rewrite list_elem_of_singleton. split; [by left|].
    intros [?|?%elem_of_nil]; done.
  - destruct (x <? z)%Z eqn:E1; [by rewrite elem_of_cons|].
    destruct (x =? z)%Z eqn:E2.
    + apply Z.eqb_eq in E2 as ->. rewrite elem_of_cons.
      split; [by right|]. intros [->|?]; [by left|done].
    + rewrite !elem_of_cons, IH. split.
      * intros [?|[?|?]]; [right; by left | by left | right; by right].
      * intros [?|[?|?]]; [right; by left | by left | right; by right].
Qed.

Lemma insert_unique_sorted (x : Z) (l : list Z) :
  StronglySorted Z.lt l → StronglySorted Z.lt (insert_unique x l).
Proof.
  induction 1 as [|z l Hs IH Hz]; simpl.
  - repeat constructor.
  - destruct (x <? z)%Z eqn:E1.
    + apply Z.ltb_lt in E1. constructor; [by constructor|].
      constructor; [done|]. eapply Forall_impl; [exact Hz|].
      intros w Hw. simpl in Hw. lia.
    + destruct (x =? z)%Z eqn:E2; [by constructor|].
      apply Z.ltb_ge in E1. apply Z.eqb_neq in E2.
      constructor; [done|]. apply Forall_forall. intros w Hw.
      apply elem_of_insert_unique in Hw as [->|Hw]; [lia|].
      eapply Forall_forall in Hz; [exact Hz|done].
Qed.

Lemma np_unique_sorted (l : list Z) : StronglySorted Z.lt (np_unique l).
Proof.
  induction l as [|x l IH]; simpl; [constructor|].
  by apply insert_unique_sorted.
Qed.

Lemma elem_of_np_unique (l : list Z) (y : Z) : y ∈ np_unique l ↔ y ∈ l.
Proof.
  induction l as [|x l IH]; simpl; [done|].
  by rewrite elem_of_insert_unique, elem_of_cons, IH.
Qed.

Lemma sorted_lt_NoDup (l : list Z) : StronglySorted Z.lt l → NoDup l.
Proof.
  induction 1 as [|z l Hs IH Hz]; constructor; [|done].
  intros Hin. eapply Forall_forall in Hz; [|exact Hin]. simpl in Hz. lia.
Qed.

(** [np.unique(v).size] is the number of distinct values of [v]. *)
Lemma length_np_unique (l : list Z) :
  length (np_unique l) = size (list_to_set l : gset Z).
Proof.
  rewrite <- (size_list_to_set (C := gset Z) (np_unique l))
    by apply sorted_lt_NoDup, np_unique_sorted.
  f_equal. apply set_eq. intros y.
  by rewrite !elem_of_list_to_set, elem_of_np_unique.
Qed.

Section SetDiagFacts.
Context {F : Type} `{Scalar F}.

Lemma offsets_set_stored_diag (fmt : sp_format) (s : spmatrix F) (value : F) :
  offsets (set_stored_diag (with_format fmt s) value) = offsets s.
Proof.
  unfold offsets, set_stored_diag, with_format. simpl.
  rewrite map_map. apply map_ext. intros [[r c] v]. simpl.
  by case_decide.
Qed.

(** The sparse branch overwrites the diagonal entries that are stored. *)
Lemma set_stored_diag_entries (s : spmatrix F) (value : F)
      (e : nat * nat * F) :
  e ∈ sp_entries (set_stored_diag s value) → e.1.1 = e.1.2 → e.2 = value.
Proof.
  unfold set_stored_diag. simpl. intros He Hd.
  apply list_elem_of_fmap in He as ([[r c] v] & -> & _). simpl in *.
  case_decide; simpl in *; [done|congruence].
Qed.

Lemma diagonal_index (n i j : nat) :
  i < n → j < n → (i * n + j) `mod` (n + 1) = 0 ↔ i = j.
Proof.
  intros Hi Hj. split.
  - intros Hmod. destruct (Nat.lt_trichotomy i j) as [Hlt|[->|Hgt]]; [|done|].
    + replace (i * n + j) with ((j - i) + i * (n + 1)) in Hmod by lia.
      rewrite Nat.Div0.mod_add, Nat.mod_small in Hmod by lia. lia.
    + replace (i * n + j) with ((n + 1 - (i - j)) + (i - 1) * (n + 1))
        in Hmod by nia.
      rewrite Nat.Div0.mod_add, Nat.mod_small in Hmod by lia. lia.
  - intros ->. replace (j * n + j) with (0 + j * (n + 1)) by lia.
    rewrite Nat.Div0.mod_add. by apply Nat.mod_small; lia.
Qed.

(** The dense branch: on a square array the stride [n + 1] runs along the
    diagonal, so every diagonal entry is overwritten and no other one. *)
Lemma set_flat_stride_entry (a : array2 F) (value : F) (i j : nat)
      (r : list F) (x : F) :
  square a → rows a !! i = Some r → r !! j = Some x →
  rows (set_flat_stride a (nrows a + 1) value) !! i
    ≫= (λ r' : list F, r' !! j)
  = Some (if decide (i = j) then value else x).
Proof.
  intros [Hwf Hsq] Hr Hx. unfold set_flat_stride. simpl.
  set (n := nrows a) in *.
  assert (i < n) as Hi by (by apply lookup_lt_Some in Hr).
  assert (length r = n) as Hlen.
  { apply list_elem_of_lookup_2 in Hr.
    eapply Forall_forall in Hwf; [|exact Hr]. simpl in Hwf. lia. }
  assert (j < n) as Hj by (apply lookup_lt_Some in Hx; lia).
  rewrite Hsq. fold n.
  assert (Forall (λ l : list F, length l = n) (rows a)) as Hwf'.
  { eapply Forall_impl; [exact Hwf|]. simpl. intros; lia. }
  rewrite sublist_lookup_reshape; [|lia|].
  2:{ rewrite length_imap, length_join.
      rewrite (sum_list_fmap_same n) by done. done. }
  rewrite sublist_lookup_Some.
  2:{ rewrite length_imap, length_join.
      rewrite (sum_list_fmap_same n) by done.
      change (length (rows a)) with n. nia. }
  simpl. rewrite lookup_take_lt by done. rewrite lookup_drop.
  rewrite list_lookup_imap.
  assert (mjoin (rows a) !! (i * n + j) = Some x) as ->.
  { apply (join_lookup_Some_same_length' n); [done..|]. by exists r. }
  simpl. f_equal.
  destruct (decide (i = j)) as [->|Hne].
  - rewrite decide_True; [done|]. by apply diagonal_index.
  - rewrite decide_False; [done|]. by rewrite diagonal_index.
Qed.

Lemma set_flat_stride_diagonal (a : array2 F) (value : F) (i : nat) :
  square a → i < nrows a →
  rows (set_flat_stride a (nrows a + 1) value) !! i
    ≫= (λ r' : list F, r' !! i)
  = Some value.
Proof.
  intros Hsq Hi.
  destruct (lookup_lt_is_Some_2 (rows a) i Hi) as [r Hr].
  assert (length r = nrows a) as Hlen.
  { destruct Hsq as [Hwf Hsq]. apply list_elem_of_lookup_2 in Hr.
    eapply Forall_forall in Hwf; [|exact Hr]. simpl in Hwf. lia. }
  destruct (lookup_lt_is_Some_2 r i) as [x Hx]; [lia|].
  rewrite (set_flat_stride_entry a value i i r x) by done.
  by rewrite decide_True.
Qed.

Lemma set_diag_sparse_lookup (h : store F) (r : ref) (value : F)
      (s : spmatrix F) :
  h !! r = Some (Sparse s) →
  ∃ h' r',
    _set_diag h r value = Some (h', r')
    ∧ length h ≤ r'
    ∧ h' !! r'
      = Some (Sparse (with_format
                        (if decide (length (np_unique (offsets s)) ≤ 7)
                         then DIA else CSR)
                        (set_stored_diag (with_format COO s) value))).
Proof.
  intros Hr. unfold _set_diag. rewrite Hr.
  rewrite offsets_set_stored_diag.
  destruct (decide (sp_fmt s = COO)); unfold alloc;
    case_decide; eexists _, _; (split; [reflexivity|]);
    rewrite ?length_insert, ?length_app; simpl; (split; [lia|]);
    rewrite lookup_app_r by (rewrite ?length_insert, ?length_app; simpl; lia);
    rewrite ?length_insert, ?length_app, Nat.sub_diag; done.
Qed.

(** [flat[::stride] = value] on a well-formed array: the entry in row [i]
    and column [j] has the flat index [i * ncols + j]. *)
Lemma set_flat_stride_flat_entry (a : array2 F) (stride : nat) (value : F)
      (i j : nat) (x : F) :
  wf_array2 a →
  rows a !! i ≫= (λ r : list F, r !! j) = Some x →
  rows (set_flat_stride a stride value) !! i ≫= (λ r' : list F, r' !! j)
  = Some (if decide ((i * ncols a + j) `mod` stride = 0) then value else x).
Proof.
  intros Hwf Hx. unfold set_flat_stride. simpl.
  destruct (rows a !! i) as [r|] eqn:Hr; [|done]. simpl in Hx.
  set (n := nrows a) in *. set (c := ncols a) in *.
  assert (i < n) as Hi by (by apply lookup_lt_Some in Hr).
  assert (length r = c) as Hlen.
  { apply list_elem_of_lookup_2 in Hr.
    eapply Forall_forall in Hwf; [|exact Hr]. done. }
  assert (j < c) as Hj by (apply lookup_lt_Some in Hx; lia).
  assert (length (mjoin (rows a)) = n * c) as Hflat.
  { rewrite length_join. by rewrite (sum_list_fmap_same c). }
  rewrite sublist_lookup_reshape; [|lia|].
  2:{ by rewrite length_imap. }
  rewrite sublist_lookup_Some.
  2:{ rewrite length_imap, Hflat. nia. }
  simpl. rewrite lookup_take_lt by done. rewrite lookup_drop.
  rewrite list_lookup_imap.
  assert (mjoin (rows a) !! (i * c + j) = Some x) as ->.
  { apply (join_lookup_Some_same_length' c); [done..|]. by exists r. }
  done.
Qed.

Lemma set_flat_stride_shape (a : array2 F) (stride : nat) (value : F) :
  ncols (set_flat_stride a stride value) = ncols a
  ∧ nrows (set_flat_stride a stride value) = nrows a.
Proof.
  split; [done|]. unfold nrows, set_flat_stride. simpl.
  by rewrite length_reshape, length_replicate.
Qed.

(** The size of [np.unique (row - col)] is the length of any list that
    holds each offset of a stored entry once. *)
Lemma length_unique_offsets (s : spmatrix F) (ds : list Z) :
  NoDup ds →
  (∀ d, d ∈ ds ↔ ∃ e, e ∈ sp_entries s
                       ∧ d = (Z.of_nat e.1.1 - Z.of_nat e.1.2)%Z) →
  length (np_unique (offsets s)) = length ds.
Proof.
  intros Hnd Hds. apply Permutation_length, NoDup_Permutation; [|done|].
  - apply sorted_lt_NoDup, np_unique_sorted.
  - intros d. rewrite elem_of_np_unique, Hds. unfold offsets.
    rewrite list_elem_of_fmap. split; intros (e & ? & ?); by exists e.
Qed.

End SetDiagFacts.

(** ** The shape, the columns and the trace of a run *)

Section RunFacts.
Context {F : Type} `{Scalar F}.

Variable eigen_decomposition : eigen_request F → exn + (list F * array2 F).

(** The shape of the array the run returns, whatever the dispatcher
    replies: as many rows as the degree vector has entries, and
    [min(k, m)] columns for a reply of [m] eigenvectors, one less with
    [drop_first]. *)
Lemma finish_shape (lambdas : list F) (diffusion_map : array2 F) (k : Z)
      (dd : list F) (drop_first : bool) :
  (0 ≤ k)%Z → nrows diffusion_map = length dd →
  ∃ E, finish (inr (lambdas, diffusion_map)) k dd drop_first = inr E
       ∧ nrows E = length dd
       ∧ ncols E = (if drop_first
                    then Nat.min (Z.to_nat k) (ncols diffusion_map) - 1
                    else Nat.min (Z.to_nat k) (ncols diffusion_map)).
Proof.
  intros Hk Hdd. unfold finish. cbn [bind_exn snd].
  rewrite rescale_rows by done. cbn [bind_exn].
  set (e := {| ncols := nrows diffusion_map;
               rows := map (λ v, zip_with fmul v dd)
                           (reverse (take (Z.to_nat k + 1)
                              (rows (transpose diffusion_map)))) |}).
  exists (select e k drop_first). split; [done|].
  destruct (select_shape e k drop_first Hk) as [Hr Hc].
  split; [by rewrite Hr|]. rewrite Hc. unfold nrows, e. simpl.
  rewrite length_map, length_reverse, length_take, length_map, length_seq.
  destruct drop_first; lia.
Qed.

(** With [drop_first] the run never returns [k] columns for [k ≥ 1]. *)
Lemma finish_drop_first_short (lambdas : list F) (diffusion_map : array2 F)
      (k : Z) (dd : list F) (E : array2 F) :
  (1 ≤ k)%Z → nrows diffusion_map = length dd →
  finish (inr (lambdas, diffusion_map)) k dd true = inr E →
  ncols E < Z.to_nat k.
Proof.
  intros Hk Hdd HE.
  destruct (finish_shape lambdas diffusion_map k dd true) as (E' & HE' & _ & Hc);
    [lia|done|].
  rewrite HE in HE'. injection HE' as <-. rewrite Hc. lia.
Qed.

(** The events of a run: at most a warning, then at most one request to
    the dispatcher, which carries the arguments of the call. *)
Lemma spectral_embedding_trace (G : pyobj F) (k : Z) (s : solver) (sd : seed)
      (tol : F) (drop_first : bool) (ev : event F) :
  ev ∈ (spectral_embedding eigen_decomposition G k s sd tol drop_first).1 →
  ev = EvWarn not_connected_warning
  ∨ ∃ L rs, ev = EvEigen (EigenRequest L k s rs tol drop_first).
Proof.
  unfold spectral_embedding, bind_run, lift, raise.
  destruct (check_random_state sd) as [|rs]; [by intros ?%elem_of_nil|].
  destruct G as [g|]; [|by intros ?%elem_of_nil].
  destruct (get_affinity_matrix g) as [|A]; [by intros ?%elem_of_nil|].
  destruct (_graph_is_connected A) as [|b]; [by intros ?%elem_of_nil|].
  assert (∀ t : list (event F),
            ev ∈ (if negb b then [EvWarn not_connected_warning] else []) ++ t →
            ev = EvWarn not_connected_warning ∨ ev ∈ t) as Hwarn.
  { intros t. destruct b; simpl; [by right|].
    intros [->|?]%elem_of_cons; [by left|by right]. }
  destruct (get_laplacian_matrix g) as [|L].
  { destruct b; simpl; [by intros ?%elem_of_nil|].
    intros ->%list_elem_of_singleton. by left. }
  set (req := EigenRequest L k s rs tol drop_first).
  assert (∀ t : list (event F), ev ∈ EvEigen req :: t → t = [] →
            ∃ L rs, ev = EvEigen (EigenRequest L k s rs tol drop_first))
    as Hreq.
  { intros t Hin ->. apply list_elem_of_singleton in Hin. by exists L, rs. }
  destruct b; simpl;
    (destruct (eigen_decomposition req) as [e|res]; simpl;
     [|destruct (rescale res.2 k (matrix_diagonal L)); simpl]).
  all: rewrite ?elem_of_cons, ?elem_of_nil.
  all: intros Hin; repeat destruct Hin as [Hin|Hin]; subst;
    try done; try (by left); try (right; by exists L, rs).
Qed.

End RunFacts.

Section PipelineColumns.
Context {F : Type} `{Scalar F}.



End PipelineColumns.

(** ** Cliques *)

Lemma clique_edge (n i j : nat) :
  has_edge (Dense (clique n)) i j ↔ i < n ∧ j < n.
Proof.
  simpl. split.
  - intros (r & x & Hr & Hx & _).
    apply lookup_replicate in Hr as [-> Hi].
    apply lookup_replicate in Hx as [_ Hj]. done.
  - intros [Hi Hj]. exists (replicate n 1%Z), 1%Z.
    by rewrite !lookup_replicate_2.
Qed.

Lemma clique_square (n : nat) : square_matrix (Dense (clique n)).
Proof.
  split; [|by unfold nrows; simpl; rewrite length_replicate].
  apply Forall_forall. intros r Hr.
  apply elem_of_replicate in Hr as [-> _]. simpl. by rewrite length_replicate.
Qed.

(** A single clique is connected. *)
Lemma clique_connected (n : nat) :
  0 < n → _graph_is_connected (Dense (clique n)) = inr true.
Proof.
  intros Hn. apply dense_is_connected.
  - apply clique_square.
  - intros i j. rewrite !clique_edge. tauto.
  - assert (shape0 (Dense (clique n)) = n) as Hshape
      by (unfold shape0, nrows; simpl; by rewrite length_replicate).
    split; [by rewrite Hshape|]. rewrite Hshape. intros i j Hi Hj.
    apply rtc_once. left. by apply clique_edge.
Qed.

Lemma two_cliques_edge (a b i j : nat) :
  has_edge (Dense (two_cliques a b)) i j
  ↔ (i < a ∧ j < a) ∨ (a ≤ i < a + b ∧ a ≤ j < a + b).
Proof.
  simpl. split.
  - intros (r & x & Hr & Hx & Hnz).
    apply lookup_app_Some in Hr as [Hr|[Hi Hr]].
    + apply lookup_replicate in Hr as [-> Hi]. left. split; [done|].
      apply lookup_app_Some in Hx as [Hx|[Hj Hx]].
      * by apply lookup_replicate in Hx as [_ Hj].
      * apply lookup_replicate in Hx as [-> _]. done.
    + rewrite length_replicate in Hi, Hr.
      apply lookup_replicate in Hr as [-> Hi']. right. split; [lia|].
      apply lookup_app_Some in Hx as [Hx|[Hj Hx]].
      * apply lookup_replicate in Hx as [-> _]. done.
      * rewrite length_replicate in Hj, Hx.
        apply lookup_replicate in Hx as [_ Hj']. lia.
  - intros [[Hi Hj]|[Hi Hj]].
    + exists (replicate a 1%Z ++ replicate b 0%Z), 1%Z.
      rewrite lookup_app_l by (rewrite length_replicate; lia).
      rewrite lookup_replicate_2 by done.
      rewrite lookup_app_l by (rewrite length_replicate; lia).
      by rewrite lookup_replicate_2.
    + exists (replicate a 0%Z ++ replicate b 1%Z), 1%Z.
      rewrite lookup_app_r by (rewrite length_replicate; lia).
      rewrite length_replicate, lookup_replicate_2 by lia.
      rewrite lookup_app_r by (rewrite length_replicate; lia).
      rewrite length_replicate, lookup_replicate_2 by lia. done.
Qed.

Lemma two_cliques_square (a b : nat) :
  square_matrix (Dense (two_cliques a b)).
Proof.
  split.
  - apply Forall_app. split; apply Forall_forall; intros r Hr;
      apply elem_of_replicate in Hr as [-> _]; simpl;
      by rewrite length_app, !length_replicate.
  - unfold nrows. simpl. by rewrite length_app, !length_replicate.
Qed.

(** Two disjoint cliques are not connected. *)
Lemma two_cliques_not_connected (a b : nat) :
  0 < a → 0 < b → _graph_is_connected (Dense (two_cliques a b)) = inr false.
Proof.
  intros Ha Hb.
  assert (shape0 (Dense (two_cliques a b)) = a + b) as Hshape
    by (unfold shape0, nrows; simpl; by rewrite length_app, !length_replicate).
  assert (_graph_is_connected (Dense (two_cliques a b)) ≠ inr true) as Hne.
  { intros Hc. apply dense_is_connected in Hc as [_ Hall].
    - rewrite Hshape in Hall.
      assert (∀ i j, linked (Dense (two_cliques a b)) i j → i < a → j < a)
        as Hside.
      { intros i j Hl. induction Hl as [|i k j Hik _ IH]; [done|].
        intros Hi. apply IH.
        destruct Hik as [He|He]; apply two_cliques_edge in He; lia. }
      specialize (Hside 0 a (Hall 0 a ltac:(lia) ltac:(lia)) Ha). lia.
    - apply two_cliques_square.
    - intros i j. rewrite !two_cliques_edge. tauto. }
  destruct (dense_component (two_cliques a b)) as (cc & t & Hcc & _).
  { apply two_cliques_square. }
  { unfold nrows. simpl. rewrite length_app, !length_replicate. lia. }
  simpl in *. rewrite Hcc in *. simpl in *.
  destruct (bool_decide _); [done|done].
Qed.

(** ** The claims *)

Section Claims.
Context {F : Type} `{Scalar F}.

Variable eigen_decomposition : eigen_request F → exn + (list F * array2 F).

(** Claim C3, as amended.  The request that [spectral_embedding] sends to
    the eigen-decomposition dispatcher carries [n_components] itself as
    the number of components, whether or not [drop_first] is set, and
    forwards [drop_first] as an argument of its own. *)
Theorem eigen_request_forwards_arguments (G : pyobj F) (k : Z) (s : solver)
        (sd : seed) (tol : F) (drop_first : bool) (req : eigen_request F) :
  EvEigen req
    ∈ (spectral_embedding eigen_decomposition G k s sd tol drop_first).1 →
  req_n_components req = k ∧ req_drop_first req = drop_first.
Proof.
  intros Hin. apply spectral_embedding_trace in Hin as [Hw|(L & rs & Heq)].
  - discriminate Hw.
  - injection Heq as ->. done.
Qed.


(** Claim C8.  When the connectivity check finds the graph disconnected,
    the run only emits the warning, once and before anything else: it goes
    on to the same request to the dispatcher and returns the same
    embedding as the run on a Geometry with the same Laplacian whose graph
    passes the check. *)
Theorem disconnected_graph_only_warns (g g' : Geometry F) (k : Z)
        (s : solver) (sd : seed) (tol : F) (drop_first : bool)
        (A A' : matrix F) (t : list (event F)) (E : array2 F) :
  get_affinity_matrix g = inr A →
  _graph_is_connected A = inr false →
  get_affinity_matrix g' = inr A' →
  _graph_is_connected A' = inr true →
  get_laplacian_matrix g' = get_laplacian_matrix g →
  spectral_embedding eigen_decomposition (GeometryObj g) k s sd tol drop_first
  = (t, inr E) →
  ∃ req,
    t = [EvWarn not_connected_warning; EvEigen req]
    ∧ spectral_embedding eigen_decomposition (GeometryObj g') k s sd tol
                         drop_first
      = ([EvEigen req], inr E).
Proof.
  intros HA Hb HA' Hb' HLL Hrun.
  destruct (spectral_embedding_inr _ _ _ _ _ _ _ _ _ Hrun)
    as (g0 & rs & A0 & b0 & L & [= <-] & Hrs & HA0 & Hb0 & HL).
  rewrite (spectral_embedding_run _ g k s sd tol drop_first rs A L false)
    in Hrun by done.
  injection Hrun as <- Hfin.
  exists (EigenRequest L k s rs tol drop_first). split; [done|].
  rewrite (spectral_embedding_run _ g' k s sd tol drop_first rs A' L true)
    by (done || congruence).
  by rewrite Hfin.
Qed.

(** Claim C10, as amended.  For every estimator and every input [X],
    [fit] raises before it constructs a Geometry object: a [NameError],
    for the unbound name [is_affinity], when [check_random_state] accepts
    the estimator's [random_state], and the [ValueError] of
    [check_random_state] otherwise.  Nothing is observed of the run but
    the exception, the attributes of the estimator are what they were
    ([embedding_] is not set), and [fit_transform] raises the same
    exception instead of returning. *)
Theorem fit_raises_before_geometry
        (geom_Geometry :
           matrix F → option F → option bool → bool → option string → bool →
           exn + Geometry F)
        (self : SpectralEmbedding F) (X : matrix F) :
  fit eigen_decomposition geom_Geometry self X
  = (self, ([], inl (fit_error self)))
  ∧ fit_transform eigen_decomposition geom_Geometry self X
    = (self, ([], inl (fit_error self)))
  ∧ (fit_error self = NameError ∨ fit_error self = ValueError).
Proof.
  assert (fit eigen_decomposition geom_Geometry self X
          = (self, ([], inl (fit_error self)))) as Hfit.
  { unfold fit, fit_error, raise.
    destruct (check_random_state (random_state self)); reflexivity. }
  split; [done|]. split.
  - unfold fit_transform. by rewrite Hfit.
  - unfold fit_error, check_random_state.
    destruct (random_state self); try case_decide; auto.
Qed.

End Claims.

Section DispatcherClaims.
Context {F : Type} `{Scalar F}.

Variable available : solver → bool.
Variable eigensolve : matrix F → solver → rng → F → exn + list (F * list F).

(** Claim C9.  With the dispatcher of the specification, a call with
    [k ≥ N], [N] the number of samples (the rows of the Laplacian), fails
    with a ConfigurationError: the run reaches the dispatcher once, the
    error it raises there is the result of the run, and no embedding is
    returned. *)
Theorem too_many_components_configuration_error (g : Geometry F) (k : Z)
        (s : solver) (sd : seed) (tol : F) (drop_first : bool)
        (rs : rng) (A L : matrix F) (b : bool) :
  check_random_state sd = inr rs →
  get_affinity_matrix g = inr A →
  _graph_is_connected A = inr b →
  get_laplacian_matrix g = inr L →
  (Z.of_nat (shape0 L) ≤ k)%Z →
  spectral_embedding (decompose available eigensolve) (GeometryObj g) k s sd
                     tol drop_first
  = (pipeline_trace b (EigenRequest L k s rs tol drop_first),
     inl ConfigurationError).
Proof.
  intros Hrs HA Hb HL Hk.
  rewrite (spectral_embedding_run _ g k s sd tol drop_first rs A L b) by done.
  f_equal. unfold finish, decompose. simpl.
  by rewrite decide_True.
Qed.

(** Whatever the arguments, a call with [k ≥ N] does not return. *)
Lemma too_many_components_never_returns (G : pyobj F) (g : Geometry F)
      (k : Z) (s : solver) (sd : seed) (tol : F) (drop_first : bool)
      (L : matrix F) (t : list (event F)) (E : array2 F) :
  G = GeometryObj g →
  get_laplacian_matrix g = inr L →
  (Z.of_nat (shape0 L) ≤ k)%Z →
  spectral_embedding (decompose available eigensolve) G k s sd tol drop_first
  ≠ (t, inr E).
Proof.
  intros -> HL Hk Hrun.
  destruct (spectral_embedding_inr _ _ _ _ _ _ _ _ _ Hrun)
    as (g0 & rs & A & b & L' & [= <-] & Hrs & HA & Hb & HL').
  rewrite HL in HL'. injection HL' as <-.
  rewrite (spectral_embedding_run _ g k s sd tol drop_first rs A L b)
    in Hrun by done.
  injection Hrun as _ Hfin. unfold finish, decompose in Hfin.
  simpl in Hfin. by rewrite decide_True in Hfin.
Qed.

End DispatcherClaims.

Section GraphClaims.
Context {F : Type} `{Scalar F}.

(** Claim C5.  For a square affinity matrix with a symmetric edge
    relation, [_graph_is_connected] returns true exactly when the graph has
    one connected component.  On a graph with a node it returns.  For
    dense input, the search from node 0 stops after at most N rounds of
    expansion, at a mask that a further round leaves unchanged and that
    marks the nodes linked to node 0; for sparse input, the number of
    components it counts over the stored entries is 1 exactly when the
    graph has one component. *)
Theorem graph_is_connected_iff_one_component (g : matrix F) :
  square_matrix g → symmetric_graph g →
  (_graph_is_connected g = inr true ↔ one_component g)
  ∧ (0 < shape0 g → ∃ b, _graph_is_connected g = inr b)
  ∧ match g with
    | Dense a =>
        0 < nrows a →
        ∃ cc t,
          _graph_connected_component a 0 = inr cc
          ∧ t ≤ nrows a
          ∧ cc = Nat.iter t (expand (node_to_add a))
                          (<[0:=true]> (replicate (nrows a) false))
          ∧ expand (node_to_add a) cc = cc
          ∧ ∀ j, cc !! j = Some true ↔ linked g 0 j
    | Sparse s =>
        ∃ c, connected_components s = inr (c, ())
             ∧ (c = 1 ↔ one_component g)
    end.
Proof.
  intros Hsq Hsym. destruct g as [a|s].
  - split; [by apply dense_is_connected|]. split.
    + intros Hn. simpl in Hn.
      destruct (dense_component a Hsq Hn) as (cc & t & Hcc & _).
      simpl. rewrite Hcc. simpl. by eexists.
    + intros Hn.
      destruct (dense_component a Hsq Hn)
        as (cc & t & Hcc & _ & Ht & Hiter & Hfix & Hreach).
      exists cc, t. do 4 (split; [done|]). intros j.
      by rewrite Hreach, linked_symmetric_graph.
  - pose proof (sparse_is_connected s Hsq) as Hiff.
    pose proof Hsq as [Hshape _].
    destruct (label_components_spec s (seq 0 (sp_shape s).1) Hsq)
      with (seen := replicate (sp_shape s).1 false) (count := 0)
      as (c & Hc & _).
    { apply Forall_forall. intros i Hi%elem_of_seq. lia. }
    { by rewrite length_replicate. }
    assert (connected_components s = inr (c, ())) as Hcc.
    { unfold connected_components. rewrite decide_True by done.
      by rewrite Hc. }
    pose proof Hiff as Hiff0.
    simpl in Hiff. rewrite Hcc in Hiff. simpl in Hiff.
    split; [exact Hiff0|]. split.
    + intros _. simpl. rewrite Hcc. simpl. by eexists.
    + exists c. split; [done|]. rewrite <- Hiff. split.
      * intros ->. done.
      * intros [= Hb]. by apply bool_decide_eq_true in Hb.
Qed.

(** Claim C7.  For sparse input [_set_diag] returns a new matrix, in DIA
    format when the stored entries lie on at most 7 distinct diagonals
    and in CSR format otherwise: the diagonals are counted by any list
    that holds each offset row - col of a stored entry once.  For dense
    input it returns the reference it was given: the array behind it
    stays dense and keeps its shape, no object is added to the store or
    changed besides it, and the entry with the flat index
    [i * ncols + j] takes the value when the index is a multiple of
    [nrows + 1] and is left as it was otherwise. *)
Theorem set_diag_layout (h : store F) (r : ref) (value : F) (m : matrix F) :
  h !! r = Some m →
  ∃ h' r',
    _set_diag h r value = Some (h', r')
    ∧ match m with
      | Sparse s =>
          length h ≤ r'
          ∧ ∃ s', h' !! r' = Some (Sparse s')
                  ∧ ∀ ds : list Z,
                      NoDup ds →
                      (∀ d, d ∈ ds
                            ↔ ∃ e, e ∈ sp_entries s
                                   ∧ d = (Z.of_nat e.1.1 - Z.of_nat e.1.2)%Z) →
                      sp_fmt s' = if decide (length ds ≤ 7) then DIA else CSR
      | Dense a =>
          r' = r
          ∧ length h' = length h
          ∧ (∀ q, q ≠ r → h' !! q = h !! q)
          ∧ ∃ a', h' !! r = Some (Dense a')
                  ∧ ncols a' = ncols a
                  ∧ nrows a' = nrows a
                  ∧ (wf_array2 a →
                     ∀ i j x,
                       rows a !! i ≫= (λ l : list F, l !! j) = Some x →
                       rows a' !! i ≫= (λ l : list F, l !! j)
                       = Some (if decide ((i * ncols a + j)
                                            `mod` (nrows a + 1) = 0)
                               then value else x))
      end.
Proof.
  intros Hr. destruct m as [a|s].
  - unfold _set_diag. rewrite Hr. eexists _, _. split; [reflexivity|].
    split; [done|]. split; [by rewrite length_insert|]. split.
    + intros q Hq. by apply list_lookup_insert_ne.
    + eexists. split.
      * apply list_lookup_insert_eq. by apply lookup_lt_Some in Hr.
      * destruct (set_flat_stride_shape a (nrows a + 1) value) as [Hc Hn].
        split; [done|]. split; [done|]. intros Hwf i j x Hx.
        by apply set_flat_stride_flat_entry.
  - destruct (set_diag_sparse_lookup h r value s Hr)
      as (h' & r' & Hset & Hfresh & Hlook).
    exists h', r'. split; [done|]. split; [done|].
    eexists. split; [exact Hlook|]. intros ds Hnd Hds. simpl.
    by rewrite (length_unique_offsets s ds Hnd Hds).
Qed.

End GraphClaims.

(** ** Concrete runs *)

Lemma star_spectrum_eigenpairs :
  forallb (is_eigenpair star_laplacian) star_spectrum = true.
Proof. reflexivity. Qed.

Lemma pairs_spectrum_eigenpairs :
  forallb (is_eigenpair pairs_laplacian) pairs_spectrum = true.
Proof. reflexivity. Qed.

(** A single clique is connected; two disjoint cliques are not. *)
Example clique_is_connected :
  _graph_is_connected (Dense clique3) = inr true.
Proof. reflexivity. Qed.

Example disjoint_cliques_not_connected :
  _graph_is_connected (Dense pairs_affinity) = inr false.
Proof. reflexivity. Qed.

Example sparse_clique_is_connected :
  _graph_is_connected
    (Sparse (SpMatrix CSR (3, 3)
               [ (0, 1, 1%Z); (0, 2, 1%Z); (1, 0, 1%Z); (1, 2, 1%Z);
                 (2, 0, 1%Z); (2, 1, 1%Z) ]))
  = inr true.
Proof. reflexivity. Qed.

Example sparse_disjoint_cliques_not_connected :
  _graph_is_connected
    (Sparse (SpMatrix CSR (4, 4)
               [ (0, 1, 1%Z); (1, 0, 1%Z); (2, 3, 1%Z); (3, 2, 1%Z) ]))
  = inr false.
Proof. reflexivity. Qed.

(** Claim C1.  On the star with [n_components = 2] and [drop_first] set,
    the run returns an array of 4 rows and 1 column, not 2: the slice
    [embedding[1:n_components]] holds [n_components - 1] rows.  This is so
    for a dispatcher that returns 2 eigenvectors and for one that returns
    3. *)
Theorem embedding_drop_first_one_column_short :
  (∃ t E,
     spectral_embedding table_decompose (GeometryObj star_geometry) 2%Z
                        SolverNone SeedNone 0%Z true = (t, inr E)
     ∧ nrows E = 4 ∧ ncols E = 1)
  ∧ (∃ t E,
       spectral_embedding spare_decompose (GeometryObj star_geometry) 2%Z
                          SolverNone SeedNone 0%Z true = (t, inr E)
       ∧ nrows E = 4 ∧ ncols E = 1).
Proof. split; eexists _, _; (split; [reflexivity|]); done. Qed.

(** Claim C2.  On the star with [n_components = 2] and [drop_first] set,
    the run does not discard the eigenvector of the smallest eigenvalue
    alone and keep the next 2.  With a dispatcher that returns the 2
    smallest eigenpairs in ascending order, the one column returned is the
    constant eigenvector of eigenvalue 0, rescaled, and the eigenvector
    discarded is the second one; with a dispatcher that returns 3, the one
    column returned is the second eigenvector, and the first and the third
    are discarded. *)
Theorem drop_first_keeps_one_eigenvector :
  (∃ t E,
     spectral_embedding table_decompose (GeometryObj star_geometry) 2%Z
                        SolverNone SeedNone 0%Z true = (t, inr E)
     ∧ rows (transpose E)
       = [zip_with Z.mul [1; 1; 1; 1]%Z (diagonal star_laplacian)])
  ∧ (∃ t E,
       spectral_embedding spare_decompose (GeometryObj star_geometry) 2%Z
                          SolverNone SeedNone 0%Z true = (t, inr E)
       ∧ rows (transpose E)
         = [zip_with Z.mul [0; 1; -1; 0]%Z (diagonal star_laplacian)]).
Proof. split; eexists _, _; (split; [reflexivity|]); done. Qed.

(** Claim C3 fails as stated: with [drop_first] set and
    [n_components = 2], the request counts 2 components, not 3. *)
Lemma eigen_request_count_counterexample :
  ¬ (∀ (k : Z) (drop_first : bool) (req : eigen_request Z),
       EvEigen req
         ∈ (spectral_embedding table_decompose (GeometryObj star_geometry) k
                               SolverNone SeedNone 0%Z drop_first).1 →
       req_n_components req = if drop_first then (k + 1)%Z else k).
Proof.
  intros Hclaim.
  specialize (Hclaim 2%Z true
                (EigenRequest (Dense star_laplacian) 2%Z SolverNone GlobalRng
                              0%Z true)).
  assert (2 = 2 + 1)%Z as Habs; [|discriminate Habs].
  apply Hclaim. apply list_elem_of_singleton. reflexivity.
Qed.

Lemma eigen_request_forwards_arguments_witness :
  EvEigen (EigenRequest (Dense star_laplacian) 2%Z SolverNone GlobalRng 0%Z
                        true)
    ∈ (spectral_embedding table_decompose (GeometryObj star_geometry) 2%Z
                          SolverNone SeedNone 0%Z true).1
  ∧ (req_n_components
       (EigenRequest (Dense star_laplacian) 2%Z SolverNone GlobalRng 0%Z true)
     = 2%Z
     ∧ req_drop_first
         (EigenRequest (Dense star_laplacian) 2%Z SolverNone GlobalRng 0%Z
                       true)
       = true).
Proof.
  assert (EvEigen (EigenRequest (Dense star_laplacian) 2%Z SolverNone
                                GlobalRng 0%Z true)
            ∈ (spectral_embedding table_decompose (GeometryObj star_geometry)
                                  2%Z SolverNone SeedNone 0%Z true).1) as Hin.
  { apply list_elem_of_singleton. reflexivity. }
  split; [exact Hin|].
  exact (eigen_request_forwards_arguments table_decompose
           (GeometryObj star_geometry) 2%Z SolverNone SeedNone 0%Z true _ Hin).
Defined.


Lemma clique3_square : square_matrix (Dense clique3).
Proof. split; [|done]. repeat constructor. Qed.

Lemma clique3_symmetric : symmetric_graph (Dense clique3).
Proof.
  intros i j (r & x & Hr & Hx & Hnz).
  destruct i as [|[|[|i]]]; simpl in Hr; try done; injection Hr as <-;
    (destruct j as [|[|[|j]]]; simpl in Hx; try done; injection Hx as <-;
     simpl in Hnz; try done);
    eexists _, _; (split; [reflexivity|]); (split; [reflexivity|]); done.
Qed.

Lemma graph_is_connected_iff_one_component_witness :
  square_matrix (Dense clique3)
  ∧ symmetric_graph (Dense clique3)
  ∧ (_graph_is_connected (Dense clique3) = inr true
     ↔ one_component (Dense clique3)).
Proof.
  split; [exact clique3_square|]. split; [exact clique3_symmetric|].
  exact (proj1 (graph_is_connected_iff_one_component (Dense clique3)
                  clique3_square clique3_symmetric)).
Defined.

(** Claim C6.  On the sparse Laplacian of the graph with one edge and an
    isolated node, whose diagonal entry at the isolated node is not
    stored, [_set_diag] with the value 5 returns a matrix whose diagonal
    is 5, 5, 0: the entry that is not stored stays zero. *)
Theorem set_diag_sparse_leaves_unstored_diagonal :
  ∃ h' r' s',
    _set_diag [Sparse isolated_laplacian] 0 5%Z = Some (h', r')
    ∧ h' !! r' = Some (Sparse s')
    ∧ sp_diagonal s' = [5; 5; 0]%Z
    ∧ sp_entry s' 2 2 ≠ 5%Z.
Proof.
  eexists _, _, _. split; [reflexivity|]. split; [reflexivity|].
  split; [reflexivity|]. discriminate.
Qed.

Lemma isolated_laplacian_offsets (d : Z) :
  d ∈ [0; -1; 1]%Z
  ↔ ∃ e, e ∈ sp_entries isolated_laplacian
         ∧ d = (Z.of_nat e.1.1 - Z.of_nat e.1.2)%Z.
Proof.
  split.
  - intros Hd. repeat (apply elem_of_cons in Hd as [->|Hd]).
    + exists (0, 0, 1%Z). split; [|done]. repeat constructor.
    + exists (0, 1, (-1)%Z). split; [|done]. repeat constructor.
    + exists (1, 0, (-1)%Z). split; [|done]. repeat constructor.
    + by apply elem_of_nil in Hd.
  - intros (e & He & ->). simpl in He.
    repeat (apply elem_of_cons in He as [->|He]); simpl;
      [repeat constructor..|by apply elem_of_nil in He].
Qed.

Lemma first_row_offsets (d : Z) :
  d ∈ [0; -1; -2; -3; -4; -5; -6; -7]%Z
  ↔ ∃ e, e ∈ sp_entries first_row
         ∧ d = (Z.of_nat e.1.1 - Z.of_nat e.1.2)%Z.
Proof.
  split.
  - intros Hd. repeat (apply elem_of_cons in Hd as [->|Hd]).
    + exists (0, 0, 1%Z). split; [|done]. repeat constructor.
    + exists (0, 1, 1%Z). split; [|done]. repeat constructor.
    + exists (0, 2, 1%Z). split; [|done]. repeat constructor.
    + exists (0, 3, 1%Z). split; [|done]. repeat constructor.
    + exists (0, 4, 1%Z). split; [|done]. repeat constructor.
    + exists (0, 5, 1%Z). split; [|done]. repeat constructor.
    + exists (0, 6, 1%Z). split; [|done]. repeat constructor.
    + exists (0, 7, 1%Z). split; [|done]. repeat constructor.
    + by apply elem_of_nil in Hd.
  - intros (e & He & ->). simpl in He.
    repeat (apply elem_of_cons in He as [->|He]); simpl;
      [repeat constructor..|by apply elem_of_nil in He].
Qed.

Lemma NoDup_three_offsets : NoDup [0; -1; 1]%Z.
Proof. by apply (bool_decide_unpack _). Qed.

Lemma NoDup_eight_offsets : NoDup [0; -1; -2; -3; -4; -5; -6; -7]%Z.
Proof. by apply (bool_decide_unpack _). Qed.

Lemma star_laplacian_wf : wf_array2 star_laplacian.
Proof. repeat constructor. Qed.

Lemma set_diag_layout_witness :
  (∃ h' r' s',
     _set_diag [Sparse isolated_laplacian] 0 5%Z = Some (h', r')
     ∧ length [Sparse isolated_laplacian] ≤ r'
     ∧ h' !! r' = Some (Sparse s')
     ∧ sp_fmt s' = DIA)
  ∧ (∃ h' r' s',
       _set_diag [Sparse first_row] 0 5%Z = Some (h', r')
       ∧ length [Sparse first_row] ≤ r'
       ∧ h' !! r' = Some (Sparse s')
       ∧ sp_fmt s' = CSR)
  ∧ ∃ h' a',
      _set_diag [Dense star_laplacian] 0 5%Z = Some (h', 0)
      ∧ length h' = 1
      ∧ h' !! 0 = Some (Dense a')
      ∧ ncols a' = 4 ∧ nrows a' = 4
      ∧ rows a' !! 2 ≫= (λ l : list Z, l !! 2) = Some 5%Z
      ∧ rows a' !! 2 ≫= (λ l : list Z, l !! 0) = Some (-1)%Z.
Proof.
  split; [|split].
  - destruct (set_diag_layout [Sparse isolated_laplacian] 0 5%Z
                (Sparse isolated_laplacian) eq_refl)
      as (h' & r' & Hset & Hfresh & s' & Hlook & Hfmt).
    exists h', r', s'. repeat split; [done..|].
    exact (Hfmt [0; -1; 1]%Z NoDup_three_offsets isolated_laplacian_offsets).
  - destruct (set_diag_layout [Sparse first_row] 0 5%Z
                (Sparse first_row) eq_refl)
      as (h' & r' & Hset & Hfresh & s' & Hlook & Hfmt).
    exists h', r', s'. repeat split; [done..|].
    exact (Hfmt [0; -1; -2; -3; -4; -5; -6; -7]%Z NoDup_eight_offsets
             first_row_offsets).
  - destruct (set_diag_layout [Dense star_laplacian] 0 5%Z
                (Dense star_laplacian) eq_refl)
      as (h' & r' & Hset & -> & Hlen & _ & a' & Hlook & Hc & Hn & Hent).
    exists h', a'. repeat split; [done..| |].
    + exact (Hent star_laplacian_wf 2 2 1%Z eq_refl).
    + exact (Hent star_laplacian_wf 2 0 (-1)%Z eq_refl).
Defined.

Lemma disconnected_graph_only_warns_witness :
  _graph_is_connected (Dense pairs_affinity) = inr false
  ∧ _graph_is_connected (Dense star_affinity) = inr true
  ∧ ∃ req,
      [EvWarn not_connected_warning; EvEigen pairs_request]
      = [EvWarn not_connected_warning; EvEigen req]
      ∧ spectral_embedding table_decompose
                           (GeometryObj pairs_geometry_connected) 2%Z
                           SolverNone SeedNone 0%Z false
        = ([EvEigen req],
           inr (Array2 2 [ [0; 1]; [0; 1]; [1; 0]; [1; 0] ]%Z)).
Proof.
  split; [reflexivity|]. split; [reflexivity|].
  apply (disconnected_graph_only_warns table_decompose pairs_geometry
           pairs_geometry_connected 2%Z SolverNone SeedNone 0%Z false
           (Dense pairs_affinity) (Dense star_affinity)); reflexivity.
Defined.

Lemma too_many_components_configuration_error_witness :
  (Z.of_nat (shape0 (Dense star_laplacian)) ≤ 4)%Z
  ∧ spectral_embedding (decompose all_available table_eigensolve)
                       (GeometryObj star_geometry) 4%Z SolverNone SeedNone
                       0%Z true
    = (pipeline_trace true
         (EigenRequest (Dense star_laplacian) 4%Z SolverNone GlobalRng 0%Z
                       true),
       inl ConfigurationError).
Proof.
  split; [by vm_compute|].
  apply (too_many_components_configuration_error all_available
           table_eigensolve star_geometry 4%Z SolverNone SeedNone 0%Z true
           GlobalRng (Dense star_affinity) (Dense star_laplacian) true);
    [reflexivity..|by vm_compute].
Defined.

(** Claim C10 fails as stated: an estimator whose [random_state] is not a
    seed makes [fit] raise the [ValueError] of [check_random_state], before
    the unbound name is read. *)
Lemma fit_bad_seed_counterexample :
  ¬ (∀ (self : SpectralEmbedding Z) (X : matrix Z),
       (fit table_decompose plain_geometry self X).2.2 = inl NameError).
Proof.
  intros Hclaim.
  specialize (Hclaim (init None None None (Some (SeedOther "abc")) None None
                           None None)
                     (Dense star_affinity)).
  discriminate Hclaim.
Qed.

(** * Further properties *)

(** ** The search [_graph_connected_component] *)

Section SearchFacts.
Context {F : Type} `{Scalar F}.

(** On a square array, the search from [node_id] returns the mask of the
    nodes that a path of entries [!= 0], each followed from its row to its
    column, reaches from [node_id]. *)
Theorem connected_component_reaches (a : array2 F) (node_id : nat) :
  square a → node_id < nrows a →
  ∃ cc,
    _graph_connected_component a node_id = inr cc
    ∧ length cc = nrows a
    ∧ ∀ j, cc !! j = Some true ↔ rtc (has_edge (Dense a)) node_id j.
Proof.
  intros Hsq Hn. unfold _graph_connected_component.
  rewrite decide_True by done.
  destruct (grow_component (nrows a) (node_to_add a) (has_edge (Dense a)))
    with (start := node_id) as (cc & t & Hcc & Hlen & _ & _ & _ & Hreach).
  - intros m j _. apply elem_of_node_to_add.
  - intros i j. by apply dense_edge_bound.
  - done.
  - by exists cc.
Qed.

(** On a square dense array the check raises only when the array has no
    row, and then an [IndexError]. *)
Theorem graph_is_connected_dense_raises (a : array2 F) :
  square a →
  match _graph_is_connected (Dense a) with
  | inl e => e = IndexError ∧ nrows a = 0
  | inr _ => 0 < nrows a
  end.
Proof.
  intros Hsq. simpl.
  destruct (decide (0 < nrows a)) as [Hn|Hn].
  - destruct (dense_component a Hsq Hn) as (cc & t & -> & _). done.
  - unfold _graph_connected_component. rewrite decide_False by done.
    simpl. split; [done|lia].
Qed.

(** The dense check follows edges in one direction: it returns true
    exactly when every node is reached from node 0 along entries [!= 0]
    followed from row to column, whether or not the array is symmetric. *)
Theorem graph_is_connected_dense_directed (a : array2 F) :
  square a →
  _graph_is_connected (Dense a) = inr true
  ↔ 0 < nrows a ∧ ∀ j, j < nrows a → rtc (has_edge (Dense a)) 0 j.
Proof.
  intros Hsq. simpl.
  destruct (decide (0 < nrows a)) as [Hn|Hn].
  - destruct (dense_component a Hsq Hn)
      as (cc & t & -> & Hlen & _ & _ & _ & Hcc). simpl.
    split.
    + intros [= Hb]. apply bool_decide_eq_true in Hb. split; [done|].
      intros j Hj. apply Hcc. apply count_true_all; [|lia]. by rewrite Hlen.
    + intros [_ Hall]. f_equal. apply bool_decide_eq_true.
      rewrite <- Hlen. apply count_true_all. intros j Hj.
      apply Hcc, Hall. lia.
  - unfold _graph_connected_component. rewrite decide_False by done. simpl.
    split; [done|]. intros [? _]. lia.
Qed.

(** On an array with more columns than rows, the search raises an
    [IndexError] as soon as the row of the start node has an entry [!= 0]
    in a column that is not a node. *)
Theorem connected_component_wide_raises (a : array2 F) (node_id j : nat)
        (r : list F) (x : F) :
  rows a !! node_id = Some r → r !! j = Some x → fnonzero x = true →
  nrows a ≤ j →
  _graph_connected_component a node_id = inl IndexError.
Proof.
  intros Hr Hx Hnz Hj.
  assert (node_id < nrows a) as Hn by (by apply lookup_lt_Some in Hr).
  unfold _graph_connected_component. rewrite decide_True by done.
  destruct (nrows a) as [|n'] eqn:Hrows; [lia|].
  rewrite <- Hrows. rewrite Hrows at 1. cbn [grow].
  unfold mark. rewrite decide_False; [done|].
  intros Hall.
  assert (j ∈ node_to_add a (<[node_id:=true]> (replicate (nrows a) false)))
    as Hin.
  { apply elem_of_node_to_add. exists node_id. split.
    - apply list_lookup_insert_eq. rewrite length_replicate. lia.
    - by exists r, x. }
  eapply Forall_forall in Hall; [|exact Hin]. simpl in Hall.
  rewrite length_insert, length_replicate in Hall. lia.
Qed.

Lemma nonzero_from_positions (j : nat) (r : list F) :
  nonzero_from j r = positions_from j (map fnonzero r).
Proof.
  revert j. induction r as [|x r IH]; intros j; simpl; [done|].
  by rewrite IH.
Qed.

Lemma select_rows_map {A B} (f : A → B) (mask : list bool) (rs : list A) :
  select_rows mask (map f rs) = map f (select_rows mask rs).
Proof.
  revert rs. induction mask as [|b mask IH]; intros [|r rs]; simpl;
    try done.
  destruct b; simpl; by rewrite IH.
Qed.

Lemma node_to_add_pattern (a : array2 F) (m : list bool) :
  node_to_add a m = select_rows m (pattern a) ≫= positions_from 0.
Proof.
  unfold node_to_add, pattern. rewrite select_rows_map.
  induction (select_rows m (rows a)) as [|r rs IH]; [done|].
  rewrite fmap_cons, !bind_cons, IH. by rewrite nonzero_from_positions.
Qed.

(** The dense check reads the weights of the graph only through the test
    [!= 0]: two arrays with the same pattern of such entries get the same
    answer. *)
Theorem graph_is_connected_pattern (a a' : array2 F) :
  pattern a = pattern a' →
  _graph_is_connected (Dense a) = _graph_is_connected (Dense a').
Proof.
  intros Hp.
  assert (nrows a = nrows a') as Hrows.
  { unfold nrows. apply (f_equal length) in Hp. unfold pattern in Hp.
    by rewrite !length_map in Hp. }
  assert (∀ fuel m, grow (node_to_add a) fuel m = grow (node_to_add a') fuel m)
    as Hgrow.
  { induction fuel as [|fuel IH]; intros m; simpl; [done|].
    rewrite !node_to_add_pattern, Hp.
    destruct (mark m _) as [e|m']; simpl; [done|].
    case_decide; [done|apply IH]. }
  simpl. unfold _graph_connected_component. rewrite Hrows.
  case_decide; [|done]. by rewrite Hgrow.
Qed.

End SearchFacts.

(** ** Dense and sparse graphs *)

Section RepresentationFacts.
Context {F : Type} `{Scalar F}.

Lemma elem_of_dense_entries (a : array2 F) (i j : nat) (v : F) :
  (i, j, v) ∈ dense_entries a
  ↔ ∃ r, rows a !! i = Some r ∧ r !! j = Some v ∧ fnonzero v = true.
Proof.
  unfold dense_entries. rewrite list_elem_of_join. split.
  - intros (l & Hin & Hl).
    apply elem_of_lookup_imap in Hl as (i' & r & -> & Hr).
    apply list_elem_of_omap in Hin as ([j' x] & Hjx & Hsome).
    apply elem_of_lookup_imap in Hjx as (j'' & x' & [= -> ->] & Hx).
    simpl in Hsome. destruct (fnonzero x') eqn:Hnz; [|done].
    injection Hsome as -> -> ->. by exists r.
  - intros (r & Hr & Hx & Hnz).
    exists (omap (λ p : nat * F,
                    if fnonzero p.2 then Some (i, p.1, p.2) else None)
                 (imap pair r)).
    split.
    + apply list_elem_of_omap. exists (j, v). split.
      * by apply (elem_of_lookup_imap_2 pair r v j).
      * simpl. by rewrite Hnz.
    + by apply (elem_of_lookup_imap_2
                  (λ i r, omap (λ p : nat * F,
                                  if fnonzero p.2 then Some (i, p.1, p.2)
                                  else None)
                               (imap pair r))
                  (rows a) r i).
Qed.

Lemma to_sparse_edge (fmt : sp_format) (a : array2 F) (i j : nat) :
  has_edge (Sparse (to_sparse fmt a)) i j ↔ has_edge (Dense a) i j.
Proof.
  simpl. split.
  - intros (v & Hv). apply elem_of_dense_entries in Hv as (r & ? & ? & ?).
    by exists r, v.
  - intros (r & x & ? & ? & ?). exists x. apply elem_of_dense_entries.
    by exists r.
Qed.

Lemma to_sparse_square (fmt : sp_format) (a : array2 F) :
  square a → square_matrix (Sparse (to_sparse fmt a)).
Proof.
  intros [Hwf Hsq]. split; [simpl; lia|].
  apply Forall_forall. intros [[i j] v] Hin. simpl.
  apply elem_of_dense_entries in Hin as (r & Hr & Hx & _).
  split; [by apply lookup_lt_Some in Hr|].
  apply lookup_lt_Some in Hx. apply list_elem_of_lookup_2 in Hr.
  eapply Forall_forall in Hwf; [|exact Hr]. simpl in Hwf. lia.
Qed.

Lemma one_component_same_edges (g g' : matrix F) :
  shape0 g = shape0 g' → (∀ i j, has_edge g i j ↔ has_edge g' i j) →
  one_component g → one_component g'.
Proof.
  intros Hshape Hedges [Hpos Hall]. split; [lia|].
  intros i j Hi Hj. rewrite <- Hshape in Hi, Hj.
  eapply rtc_subrel; [|exact (Hall i j Hi Hj)].
  intros x y [?|?]; [left|right]; by apply Hedges.
Qed.

Lemma sparse_is_connected_returns (s : spmatrix F) :
  square_matrix (Sparse s) → ∃ b, _graph_is_connected (Sparse s) = inr b.
Proof.
  intros Hsq. pose proof Hsq as [Hshape _].
  destruct (label_components_spec s (seq 0 (sp_shape s).1) Hsq)
    with (seen := replicate (sp_shape s).1 false) (count := 0)
    as (c & Hc & _).
  { apply Forall_forall. intros i Hi%elem_of_seq. lia. }
  { by rewrite length_replicate. }
  simpl. unfold connected_components. rewrite decide_True by done.
  rewrite Hc. simpl. by eexists.
Qed.

Lemma dense_is_connected_returns (a : array2 F) :
  square a → 0 < nrows a → ∃ b, _graph_is_connected (Dense a) = inr b.
Proof.
  intros Hsq Hn. simpl.
  destruct (dense_component a Hsq Hn) as (cc & t & -> & _). simpl.
  by eexists.
Qed.

(** A symmetric graph with a node gets the same answer from the check
    whether it is given as a dense array or as the sparse matrix of its
    entries [!= 0]. *)
Theorem graph_is_connected_sparse_agrees (fmt : sp_format) (a : array2 F) :
  square a → symmetric_graph (Dense a) → 0 < nrows a →
  _graph_is_connected (Sparse (to_sparse fmt a))
  = _graph_is_connected (Dense a).
Proof.
  intros Hsq Hsym Hn.
  pose proof (dense_is_connected a Hsq Hsym) as Hd.
  pose proof (sparse_is_connected _ (to_sparse_square fmt a Hsq)) as Hs.
  destruct (sparse_is_connected_returns _ (to_sparse_square fmt a Hsq))
    as [b Hb].
  destruct (dense_is_connected_returns a Hsq Hn) as [b' Hb'].
  rewrite Hb' in Hd |- *. rewrite Hb in Hs |- *. f_equal.
  assert (one_component (Sparse (to_sparse fmt a))
          ↔ one_component (Dense a)) as Hone.
  { split; apply one_component_same_edges; try done.
    - intros i j. apply to_sparse_edge.
    - intros i j. symmetry. apply to_sparse_edge. }
  destruct b, b'; try done.
  - assert (inr false = inr true :> exn + bool) as Habs; [|done].
    apply Hd, Hone, Hs. done.
  - assert (inr false = inr true :> exn + bool) as Habs; [|done].
    apply Hs, Hone, Hd. done.
Qed.

End RepresentationFacts.

(** ** More on [_set_diag] *)

Section SetDiagMore.
Context {F : Type} `{Scalar F}.

(** On a square dense array [_set_diag] keeps the shape, sets every
    diagonal entry to the value and leaves every other entry as it was. *)
Theorem set_diag_dense_square (h : store F) (r : ref) (value : F)
        (a : array2 F) :
  h !! r = Some (Dense a) → square a →
  ∃ a',
    _set_diag h r value = Some (<[r := Dense a']> h, r)
    ∧ ncols a' = ncols a
    ∧ nrows a' = nrows a
    ∧ ∀ i j x,
        rows a !! i ≫= (λ l : list F, l !! j) = Some x →
        rows a' !! i ≫= (λ l : list F, l !! j)
        = Some (if decide (i = j) then value else x).
Proof.
  intros Hr Hsq. exists (set_flat_stride a (nrows a + 1) value).
  split; [by unfold _set_diag; rewrite Hr|]. split; [done|]. split.
  - unfold nrows, set_flat_stride. simpl.
    by rewrite length_reshape, length_replicate.
  - intros i j x Hx. apply bind_Some in Hx as (l & Hl & Hx).
    by apply (set_flat_stride_entry a value i j l x).
Qed.

Lemma set_flat_stride_twice (a : array2 F) (v w : F) :
  wf_array2 a →
  set_flat_stride (set_flat_stride a (nrows a + 1) v)
                  (nrows (set_flat_stride a (nrows a + 1) v) + 1) w
  = set_flat_stride a (nrows a + 1) w.
Proof.
  intros Hwf.
  assert (nrows (set_flat_stride a (nrows a + 1) v) = nrows a) as ->.
  { unfold nrows, set_flat_stride. simpl.
    by rewrite length_reshape, length_replicate. }
  unfold set_flat_stride at 1 3. simpl. f_equal.
  - unfold nrows at 1. simpl. rewrite length_reshape, length_replicate.
    f_equal. rewrite join_reshape.
    2:{ rewrite sum_list_replicate, length_imap, length_join.
        rewrite (sum_list_fmap_same (ncols a)) by done. done. }
    apply list_eq. intros i. rewrite !list_lookup_imap.
    destruct (mjoin (rows a) !! i) as [x|]; simpl; [|done].
    f_equal. by case_decide.
Qed.

(** Two calls of [_set_diag] on a dense array amount to the second one:
    the value of the first call is overwritten, everything else is as
    after one call. *)
Theorem set_diag_dense_twice (h : store F) (r : ref) (v w : F)
        (a : array2 F) :
  h !! r = Some (Dense a) → wf_array2 a →
  ∃ h1,
    _set_diag h r v = Some (h1, r)
    ∧ _set_diag h1 r w = _set_diag h r w.
Proof.
  intros Hr Hwf.
  exists (<[r := Dense (set_flat_stride a (nrows a + 1) v)]> h).
  split; [by unfold _set_diag; rewrite Hr|].
  unfold _set_diag. rewrite Hr.
  rewrite list_lookup_insert_eq by (by apply lookup_lt_Some in Hr).
  rewrite list_insert_insert_eq. by rewrite set_flat_stride_twice.
Qed.

(** A sparse matrix whose stored entries lie within three diagonals of the
    main one comes back in DIA format. *)
Theorem set_diag_banded_dia (h : store F) (r : ref) (value : F)
        (s : spmatrix F) :
  h !! r = Some (Sparse s) →
  Forall (λ e : nat * nat * F,
            (-3 ≤ Z.of_nat e.1.1 - Z.of_nat e.1.2 ≤ 3)%Z) (sp_entries s) →
  ∃ h' r' s',
    _set_diag h r value = Some (h', r')
    ∧ h' !! r' = Some (Sparse s')
    ∧ sp_fmt s' = DIA.
Proof.
  intros Hr Hband.
  destruct (set_diag_sparse_lookup h r value s Hr)
    as (h' & r' & Hset & _ & Hlook).
  exists h', r'. eexists. split; [done|]. split; [exact Hlook|]. simpl.
  rewrite decide_True; [done|].
  change 7 with (length (seqZ (-3) 7)).
  apply submseteq_length, NoDup_submseteq.
  - apply sorted_lt_NoDup, np_unique_sorted.
  - intros x Hx. rewrite elem_of_np_unique in Hx.
    apply list_elem_of_fmap in Hx as (e & -> & He).
    eapply Forall_forall in Hband; [|exact He]. simpl in Hband.
    apply elem_of_seqZ. lia.
Qed.

Lemma sp_entry_set_stored_diag_off (s : spmatrix F) (value : F) (i j : nat) :
  i ≠ j → sp_entry (set_stored_diag s value) i j = sp_entry s i j.
Proof.
  intros Hne. unfold sp_entry, set_stored_diag. simpl. f_equal.
  induction (sp_entries s) as [|[[r c] v] l IH]; csimpl; [done|].
  rewrite IH. destruct (decide (r = c)) as [->|Hrc]; simpl; [|done].
  rewrite !decide_False; [done| |]; intros [-> ->]; done.
Qed.

Lemma sp_entry_set_stored_diag_on (s : spmatrix F) (value : F) (i : nat) :
  sp_entry (set_stored_diag s value) i i
  = foldr fadd fzero
          (replicate
             (length (filter (λ e : nat * nat * F, e.1.1 = i ∧ e.1.2 = i)
                             (sp_entries s)))
             value).
Proof.
  unfold sp_entry, set_stored_diag. simpl. f_equal.
  induction (sp_entries s) as [|[[r c] v] l IH]; csimpl; [done|].
  rewrite IH, filter_cons. simpl.
  destruct (decide (r = c)) as [->|Hrc]; simpl.
  - destruct (decide (c = i ∧ c = i)) as [[-> _]|Hn]; [done|done].
  - rewrite !decide_False; [done| |]; intros [-> ->]; done.
Qed.

(** For sparse input [_set_diag] keeps the shape, leaves every entry off
    the diagonal at its value, and sets to the value every diagonal entry
    that is stored once. *)
Theorem set_diag_sparse_entries (h : store F) (r : ref) (value : F)
        (s : spmatrix F) :
  (∀ x : F, fadd x fzero = x) → h !! r = Some (Sparse s) →
  ∃ h' r' s',
    _set_diag h r value = Some (h', r')
    ∧ h' !! r' = Some (Sparse s')
    ∧ sp_shape s' = sp_shape s
    ∧ (∀ i j, i ≠ j → sp_entry s' i j = sp_entry s i j)
    ∧ (∀ i, stored_once s i → sp_entry s' i i = value).
Proof.
  intros Hunit Hr.
  destruct (set_diag_sparse_lookup h r value s Hr)
    as (h' & r' & Hset & _ & Hlook).
  exists h', r'. eexists. split; [done|]. split; [exact Hlook|].
  split; [done|]. split.
  - intros i j Hne.
    exact (sp_entry_set_stored_diag_off (with_format COO s) value i j Hne).
  - intros i Hi.
    pose proof (sp_entry_set_stored_diag_on (with_format COO s) value i)
      as Hon.
    unfold stored_once in Hi. simpl in Hon. rewrite Hi in Hon. simpl in Hon.
    rewrite Hunit in Hon. exact Hon.
Qed.

(** The object that the model leaves behind the reference passed to
    [_set_diag], for sparse input: the write to the stored diagonal lands
    in it when it is in COO format, where [tocoo] hands back the matrix
    itself. *)
Lemma set_diag_sparse_input (h : store F) (r : ref) (value : F)
      (s : spmatrix F) :
  h !! r = Some (Sparse s) →
  ∃ h' r',
    _set_diag h r value = Some (h', r')
    ∧ length h ≤ r'
    ∧ h' !! r
      = Some (Sparse (if decide (sp_fmt s = COO)
                      then set_stored_diag s value else s))
    ∧ ∀ q, q < length h → q ≠ r → h' !! q = h !! q.
Proof.
  intros Hr. pose proof (lookup_lt_Some _ _ _ Hr) as Hlt.
  unfold _set_diag. rewrite Hr.
  destruct (decide (sp_fmt s = COO)) as [Hfmt|Hfmt]; unfold alloc;
    case_decide; eexists _, _; (split; [reflexivity|]);
    rewrite ?length_insert, ?length_app; simpl; (split; [lia|]); split.
  all: try (intros q Hq Hne;
            rewrite lookup_app_l
              by (rewrite ?length_insert, ?length_app; simpl; lia);
            rewrite list_lookup_insert_ne by lia;
            rewrite ?lookup_app_l by lia; done).
  all: rewrite lookup_app_l
         by (rewrite ?length_insert, ?length_app; simpl; lia).
  1,2: rewrite list_lookup_insert_eq by lia; do 2 f_equal;
       destruct s; simpl in *; by subst.
  all: rewrite list_lookup_insert_ne by lia; by rewrite lookup_app_l by lia.
Qed.

(** For sparse input the matrix returned is a new object, and no object
    besides the matrix passed in is touched.  The matrix passed in keeps
    its format and its shape.  In any format but COO it is left as it
    was.  In COO format its entries off the diagonal keep their value and
    its diagonal entries that are stored once take the value. *)
Theorem set_diag_sparse_aliasing (h : store F) (r : ref) (value : F)
        (s : spmatrix F) :
  (∀ x : F, fadd x fzero = x) → h !! r = Some (Sparse s) →
  ∃ h' r' s0,
    _set_diag h r value = Some (h', r')
    ∧ length h ≤ r'
    ∧ h' !! r = Some (Sparse s0)
    ∧ sp_fmt s0 = sp_fmt s
    ∧ sp_shape s0 = sp_shape s
    ∧ (sp_fmt s ≠ COO → s0 = s)
    ∧ (sp_fmt s = COO →
       (∀ i j, i ≠ j → sp_entry s0 i j = sp_entry s i j)
       ∧ (∀ i, stored_once s i → sp_entry s0 i i = value))
    ∧ ∀ q, q < length h → q ≠ r → h' !! q = h !! q.
Proof.
  intros Hunit Hr.
  destruct (set_diag_sparse_input h r value s Hr)
    as (h' & r' & Hset & Hfresh & Hin & Hrest).
  exists h', r'. eexists. split; [done|]. split; [done|].
  split; [exact Hin|].
  destruct (decide (sp_fmt s = COO)) as [Hfmt|Hfmt].
  - split; [done|]. split; [done|]. split; [done|]. split; [|done].
    intros _. split.
    + intros i j Hne. by apply sp_entry_set_stored_diag_off.
    + intros i Hi.
      pose proof (sp_entry_set_stored_diag_on s value i) as Hon.
      unfold stored_once in Hi. rewrite Hi in Hon. simpl in Hon.
      by rewrite Hunit in Hon.
  - split; [done|]. split; [done|]. split; [done|]. split; [done|done].
Qed.

End SetDiagMore.

(** ** More on [spectral_embedding] *)

Section PipelineMore.
Context {F : Type} `{Scalar F}.

Variable eigen_decomposition : eigen_request F → exn + (list F * array2 F).

Lemma length_omap_total {A B} (f : A → option B) (l : list A) :
  Forall (λ x, is_Some (f x)) l → length (omap f l) = length l.
Proof.
  induction 1 as [|x l [y Hy] _ IH]; csimpl; [done|].
  rewrite Hy. simpl. by rewrite IH.
Qed.

(** The degree vector of a square Laplacian has one entry per sample. *)
Lemma length_matrix_diagonal (L : matrix F) :
  square_matrix L → length (matrix_diagonal L) = shape0 L.
Proof.
  destruct L as [a|s]; simpl.
  - intros [Hwf Hsq]. unfold diagonal.
    rewrite length_omap_total; [rewrite length_seq; lia|].
    apply Forall_forall. intros i Hi%elem_of_seq.
    destruct (lookup_lt_is_Some_2 (rows a) i) as [r Hr];
      [unfold nrows in *; lia|].
    rewrite Hr. simpl. apply lookup_lt_is_Some_2.
    apply list_elem_of_lookup_2 in Hr.
    eapply Forall_forall in Hwf; [|exact Hr]. simpl in Hwf. lia.
  - intros [Hsq _]. unfold sp_diagonal.
    rewrite length_map, length_seq. lia.
Qed.

(** A run that gets a reply of [m] eigenvectors over the [N] samples
    returns an array of [N] rows; it has [min(k, m)] columns when
    [drop_first] is not set and one less when it is, so that [k = 0], and
    [k = 1] with [drop_first], give an array without columns. *)
Theorem spectral_embedding_shape (g : Geometry F) (k : Z) (s : solver)
        (sd : seed) (tol : F) (drop_first : bool) (rs : rng)
        (A L : matrix F) (b : bool) (lambdas : list F)
        (diffusion_map : array2 F) :
  (0 ≤ k)%Z →
  check_random_state sd = inr rs →
  get_affinity_matrix g = inr A →
  _graph_is_connected A = inr b →
  get_laplacian_matrix g = inr L →
  square_matrix L →
  eigen_decomposition (EigenRequest L k s rs tol drop_first)
  = inr (lambdas, diffusion_map) →
  nrows diffusion_map = shape0 L →
  ∃ E,
    spectral_embedding eigen_decomposition (GeometryObj g) k s sd tol
                       drop_first
    = (pipeline_trace b (EigenRequest L k s rs tol drop_first), inr E)
    ∧ nrows E = shape0 L
    ∧ ncols E = if drop_first
                then Nat.min (Z.to_nat k) (ncols diffusion_map) - 1
                else Nat.min (Z.to_nat k) (ncols diffusion_map).
Proof.
  intros Hk Hrs HA Hb HL Hsq Hreply Hrows.
  rewrite (spectral_embedding_run _ g k s sd tol drop_first rs A L b) by done.
  rewrite Hreply.
  destruct (finish_shape lambdas diffusion_map k (matrix_diagonal L)
              drop_first Hk) as (E & HE & Hr & Hc).
  { by rewrite length_matrix_diagonal. }
  exists E. rewrite HE. split; [done|]. split; [|done].
  by rewrite Hr, length_matrix_diagonal.
Qed.


(** A run emits at most one warning and then makes at most one request to
    the dispatcher: it does not ask again after a failure, and it builds
    no Geometry. *)
Theorem spectral_embedding_trace_shape (G : pyobj F) (k : Z) (s : solver)
        (sd : seed) (tol : F) (drop_first : bool) :
  ∃ ws rq,
    (spectral_embedding eigen_decomposition G k s sd tol drop_first).1
    = ws ++ rq
    ∧ (ws = [] ∨ ws = [EvWarn not_connected_warning])
    ∧ (rq = []
       ∨ ∃ L rs, rq = [EvEigen (EigenRequest L k s rs tol drop_first)]).
Proof.
  unfold spectral_embedding, bind_run, lift, raise.
  destruct (check_random_state sd) as [|rs];
    [exists [], []; split; [done|]; split; by left|].
  destruct G as [g|]; [|exists [], []; split; [done|]; split; by left].
  destruct (get_affinity_matrix g) as [|A];
    [exists [], []; split; [done|]; split; by left|].
  destruct (_graph_is_connected A) as [|b];
    [exists [], []; split; [done|]; split; by left|].
  destruct (get_laplacian_matrix g) as [|L].
  { destruct b; simpl.
    - exists [], []. split; [done|]. split; by left.
    - exists [EvWarn not_connected_warning], []. split; [done|].
      split; [by right | by left]. }
  set (req := EigenRequest L k s rs tol drop_first).
  exists (if b then [] else [EvWarn not_connected_warning]), [EvEigen req].
  split.
  - destruct b; simpl;
      (destruct (eigen_decomposition req) as [e|res]; simpl; [done|]);
      (destruct (rescale res.2 k (matrix_diagonal L)); done).
  - split; [destruct b; [by left | by right]|]. right. by exists L, rs.
Qed.

(** The arguments are checked in the order of the code: a [random_state]
    that is not a seed is a [ValueError] whatever the first argument is,
    and with a seed a first argument that is not a Geometry is a
    [RuntimeError]; in both cases nothing has been called yet. *)
Theorem spectral_embedding_argument_errors (G : pyobj F) (k : Z)
        (s : solver) (sd : seed) (tol : F) (drop_first : bool) :
  match check_random_state sd with
  | inl e =>
      e = ValueError
      ∧ spectral_embedding eigen_decomposition G k s sd tol drop_first
        = ([], inl ValueError)
  | inr _ =>
      spectral_embedding eigen_decomposition OtherObj k s sd tol drop_first
      = ([], inl RuntimeError)
  end.
Proof.
  unfold spectral_embedding, bind_run, lift, raise.
  destruct (check_random_state sd) as [e|rs] eqn:Hsd; [|done].
  assert (e = ValueError) as ->; [|done].
  destruct sd; simpl in Hsd; try case_decide; congruence.
Qed.

(** An exception of the dispatcher is the exception of the run: it is not
    caught, and no second request follows it. *)
Theorem spectral_embedding_dispatcher_error (g : Geometry F) (k : Z)
        (s : solver) (sd : seed) (tol : F) (drop_first : bool) (rs : rng)
        (A L : matrix F) (b : bool) (e : exn) :
  check_random_state sd = inr rs →
  get_affinity_matrix g = inr A →
  _graph_is_connected A = inr b →
  get_laplacian_matrix g = inr L →
  eigen_decomposition (EigenRequest L k s rs tol drop_first) = inl e →
  spectral_embedding eigen_decomposition (GeometryObj g) k s sd tol
                     drop_first
  = (pipeline_trace b (EigenRequest L k s rs tol drop_first), inl e).
Proof.
  intros Hrs HA Hb HL Hreply.
  rewrite (spectral_embedding_run _ g k s sd tol drop_first rs A L b) by done.
  by rewrite Hreply.
Qed.

(** A reply whose eigenvectors do not have one entry per entry of the
    degree vector is a [ValueError] of the product, unless one of the two
    lengths is 1. *)
Theorem spectral_embedding_reply_mismatch (g : Geometry F) (k : Z)
        (s : solver) (sd : seed) (tol : F) (drop_first : bool) (rs : rng)
        (A L : matrix F) (b : bool) (lambdas : list F)
        (diffusion_map : array2 F) :
  check_random_state sd = inr rs →
  get_affinity_matrix g = inr A →
  _graph_is_connected A = inr b →
  get_laplacian_matrix g = inr L →
  eigen_decomposition (EigenRequest L k s rs tol drop_first)
  = inr (lambdas, diffusion_map) →
  nrows diffusion_map ≠ length (matrix_diagonal L) →
  nrows diffusion_map ≠ 1 →
  length (matrix_diagonal L) ≠ 1 →
  spectral_embedding eigen_decomposition (GeometryObj g) k s sd tol
                     drop_first
  = (pipeline_trace b (EigenRequest L k s rs tol drop_first),
     inl ValueError).
Proof.
  intros Hrs HA Hb HL Hreply Hne H1 H1'.
  rewrite (spectral_embedding_run _ g k s sd tol drop_first rs A L b) by done.
  rewrite Hreply. unfold finish, rescale, broadcast_mul. simpl.
  rewrite !decide_False by done.
  destruct (matrix_diagonal L) as [|d [|d' dd]]; simpl in *; done.
Qed.

Lemma graph_is_connected_verdict (g : matrix F) :
  square_matrix g → symmetric_graph g → 0 < shape0 g →
  ∃ b, _graph_is_connected g = inr b ∧ (b = true ↔ one_component g).
Proof.
  intros Hsq Hsym Hn. destruct g as [a|s].
  - destruct (dense_is_connected_returns a Hsq Hn) as [b Hb].
    exists b. split; [done|].
    rewrite <- (dense_is_connected a Hsq Hsym), Hb.
    split; [by intros -> | by intros [= ->]].
  - destruct (sparse_is_connected_returns s Hsq) as [b Hb].
    exists b. split; [done|].
    rewrite <- (sparse_is_connected s Hsq), Hb.
    split; [by intros -> | by intros [= ->]].
Qed.

Lemma spectral_embedding_warns (g : Geometry F) (k : Z) (s : solver)
      (sd : seed) (tol : F) (drop_first : bool) (rs : rng) (A : matrix F)
      (b : bool) :
  check_random_state sd = inr rs →
  get_affinity_matrix g = inr A →
  _graph_is_connected A = inr b →
  EvWarn not_connected_warning
    ∈ (spectral_embedding eigen_decomposition (GeometryObj g) k s sd tol
                          drop_first).1
  ↔ b = false.
Proof.
  intros Hrs HA Hb.
  unfold spectral_embedding, bind_run, lift, raise.
  rewrite Hrs, HA, Hb.
  destruct (get_laplacian_matrix g) as [|L].
  { destruct b; simpl; [by rewrite elem_of_nil|].
    by rewrite list_elem_of_singleton. }
  destruct b; simpl;
    (destruct (eigen_decomposition _) as [e|res]; simpl;
     [|destruct (rescale res.2 k (matrix_diagonal L)); simpl]);
    rewrite ?elem_of_cons, ?elem_of_nil;
    (split;
     [intros Hin; try done;
      repeat (destruct Hin as [Hin|Hin]; try discriminate Hin); done
     |intros Hb'; try discriminate Hb'; by left]).
Qed.

(** On a square, symmetric affinity matrix with a sample, the run warns
    exactly when the graph has more than one connected component. *)
Theorem spectral_embedding_warns_iff_split (g : Geometry F) (k : Z)
        (s : solver) (sd : seed) (tol : F) (drop_first : bool) (rs : rng)
        (A : matrix F) :
  check_random_state sd = inr rs →
  get_affinity_matrix g = inr A →
  square_matrix A → symmetric_graph A → 0 < shape0 A →
  EvWarn not_connected_warning
    ∈ (spectral_embedding eigen_decomposition (GeometryObj g) k s sd tol
                          drop_first).1
  ↔ ¬ one_component A.
Proof.
  intros Hrs HA Hsq Hsym Hn.
  destruct (graph_is_connected_verdict A Hsq Hsym Hn) as (b & Hb & Hiff).
  rewrite (spectral_embedding_warns g k s sd tol drop_first rs A b) by done.
  rewrite <- Hiff. destruct b; split; congruence.
Qed.

End PipelineMore.

Section PipelineEmpty.
Context {F : Type} `{Scalar F}.

Variable eigen_decomposition : eigen_request F → exn + (list F * array2 F).

(** On a dense affinity matrix without rows the run ends with the
    [IndexError] of the connectivity check, before the Laplacian is asked
    for and before any request to the dispatcher. *)
Theorem spectral_embedding_empty_dense (g : Geometry F) (k : Z) (s : solver)
        (sd : seed) (tol : F) (drop_first : bool) (rs : rng)
        (a : array2 F) :
  check_random_state sd = inr rs →
  get_affinity_matrix g = inr (Dense a) →
  nrows a = 0 →
  spectral_embedding eigen_decomposition (GeometryObj g) k s sd tol
                     drop_first
  = ([], inl IndexError).
Proof.
  intros Hrs HA Hn.
  unfold spectral_embedding, bind_run, lift, raise.
  rewrite Hrs, HA. simpl. unfold _graph_connected_component.
  rewrite decide_False by lia. done.
Qed.

End PipelineEmpty.

(** The eigenvalues of the reply are not used: two dispatchers whose
    replies hold the same eigenvectors lead to the same result, whatever
    eigenvalues come with them. *)
Theorem spectral_embedding_ignores_eigenvalues {F : Type} `{Scalar F}
        (decomp1 decomp2 : eigen_request F → exn + (list F * array2 F))
        (g : Geometry F) (k : Z) (s : solver) (sd : seed) (tol : F)
        (drop_first : bool) (rs : rng) (A L : matrix F) (b : bool)
        (lambdas1 lambdas2 : list F) (diffusion_map : array2 F) :
  check_random_state sd = inr rs →
  get_affinity_matrix g = inr A →
  _graph_is_connected A = inr b →
  get_laplacian_matrix g = inr L →
  decomp1 (EigenRequest L k s rs tol drop_first)
  = inr (lambdas1, diffusion_map) →
  decomp2 (EigenRequest L k s rs tol drop_first)
  = inr (lambdas2, diffusion_map) →
  spectral_embedding decomp1 (GeometryObj g) k s sd tol drop_first
  = spectral_embedding decomp2 (GeometryObj g) k s sd tol drop_first.
Proof.
  intros Hrs HA Hb HL H1 H2.
  rewrite !(spectral_embedding_run _ g k s sd tol drop_first rs A L b)
    by done.
  by rewrite H1, H2.
Qed.

(** ** Concrete instances *)

Lemma star_affinity_square : square star_affinity.
Proof. split; [|done]. repeat constructor. Qed.

Lemma star_laplacian_square : square star_laplacian.
Proof. split; [|done]. repeat constructor. Qed.

Lemma one_way_square : square one_way.
Proof. split; [|done]. repeat constructor. Qed.

Lemma connected_component_reaches_witness :
  1 < nrows star_affinity
  ∧ ∃ cc,
      _graph_connected_component star_affinity 1 = inr cc
      ∧ length cc = nrows star_affinity
      ∧ ∀ j, cc !! j = Some true ↔ rtc (has_edge (Dense star_affinity)) 1 j.
Proof.
  split; [vm_compute; lia|].
  apply (connected_component_reaches star_affinity 1 star_affinity_square).
  vm_compute. lia.
Defined.

Lemma graph_is_connected_dense_raises_witness :
  match _graph_is_connected (Dense clique3) with
  | inl e => e = IndexError ∧ nrows clique3 = 0
  | inr _ => 0 < nrows clique3
  end.
Proof. exact (graph_is_connected_dense_raises clique3 clique3_square). Defined.

Lemma graph_is_connected_dense_directed_witness :
  _graph_is_connected (Dense one_way) = inr true
  ↔ 0 < nrows one_way
    ∧ ∀ j, j < nrows one_way → rtc (has_edge (Dense one_way)) 0 j.
Proof. exact (graph_is_connected_dense_directed one_way one_way_square). Defined.

Lemma connected_component_wide_raises_witness :
  nrows wide ≤ 2 ∧ _graph_connected_component wide 0 = inl IndexError.
Proof.
  split; [vm_compute; lia|].
  apply (connected_component_wide_raises wide 0 2 [0; 0; 1]%Z 1%Z);
    [reflexivity..|vm_compute; lia].
Defined.

Lemma graph_is_connected_pattern_witness :
  pattern star_weights = pattern star_affinity
  ∧ _graph_is_connected (Dense star_weights)
    = _graph_is_connected (Dense star_affinity).
Proof.
  split; [reflexivity|].
  apply (graph_is_connected_pattern star_weights star_affinity). reflexivity.
Defined.

Lemma graph_is_connected_sparse_agrees_witness :
  0 < nrows clique3
  ∧ _graph_is_connected (Sparse (to_sparse CSR clique3))
    = _graph_is_connected (Dense clique3).
Proof.
  split; [vm_compute; lia|].
  apply (graph_is_connected_sparse_agrees CSR clique3 clique3_square
           clique3_symmetric).
  vm_compute. lia.
Defined.

Lemma set_diag_dense_square_witness :
  [Dense star_laplacian] !! 0 = Some (Dense star_laplacian)
  ∧ ∃ a',
      _set_diag [Dense star_laplacian] 0 1%Z
      = Some (<[0 := Dense a']> [Dense star_laplacian], 0)
      ∧ ncols a' = ncols star_laplacian
      ∧ nrows a' = nrows star_laplacian
      ∧ ∀ i j x,
          rows star_laplacian !! i ≫= (λ l : list Z, l !! j) = Some x →
          rows a' !! i ≫= (λ l : list Z, l !! j)
          = Some (if decide (i = j) then 1%Z else x).
Proof.
  split; [reflexivity|].
  exact (set_diag_dense_square [Dense star_laplacian] 0 1%Z star_laplacian
           eq_refl star_laplacian_square).
Defined.

Lemma set_diag_dense_twice_witness :
  ∃ h1,
    _set_diag [Dense star_laplacian] 0 5%Z = Some (h1, 0)
    ∧ _set_diag h1 0 7%Z = _set_diag [Dense star_laplacian] 0 7%Z.
Proof.
  exact (set_diag_dense_twice [Dense star_laplacian] 0 5%Z 7%Z star_laplacian
           eq_refl (proj1 star_laplacian_square)).
Defined.

Lemma isolated_laplacian_banded :
  Forall (λ e : nat * nat * Z, (-3 ≤ Z.of_nat e.1.1 - Z.of_nat e.1.2 ≤ 3)%Z)
         (sp_entries isolated_laplacian).
Proof. repeat (constructor; [simpl; lia|]). constructor. Qed.

Lemma set_diag_banded_dia_witness :
  ∃ h' r' s',
    _set_diag [Sparse isolated_laplacian] 0 5%Z = Some (h', r')
    ∧ h' !! r' = Some (Sparse s')
    ∧ sp_fmt s' = DIA.
Proof.
  exact (set_diag_banded_dia [Sparse isolated_laplacian] 0 5%Z
           isolated_laplacian eq_refl isolated_laplacian_banded).
Defined.

Lemma Z_add_zero (x : Z) : fadd x fzero = x.
Proof. simpl. lia. Qed.

Lemma set_diag_sparse_entries_witness :
  (∀ x : Z, fadd x fzero = x)
  ∧ (∃ h' r' s',
       _set_diag [Sparse isolated_laplacian] 0 5%Z = Some (h', r')
       ∧ h' !! r' = Some (Sparse s')
       ∧ sp_shape s' = (3, 3)
       ∧ sp_entry s' 0 1 = (-1)%Z
       ∧ sp_entry s' 1 1 = 5%Z)
  ∧ ∃ h' r' s',
      _set_diag [Sparse doubled] 0 5%Z = Some (h', r')
      ∧ h' !! r' = Some (Sparse s')
      ∧ sp_shape s' = (2, 2)
      ∧ sp_entry s' 1 0 = 3%Z
      ∧ sp_entry s' 1 1 = 5%Z.
Proof.
  split; [exact Z_add_zero|]. split.
  - destruct (set_diag_sparse_entries [Sparse isolated_laplacian] 0 5%Z
                isolated_laplacian Z_add_zero eq_refl)
      as (h' & r' & s' & Hset & Hlook & Hshape & Hoff & Hon).
    exists h', r', s'. repeat split; [done..| |].
    + exact (Hoff 0 1 (Nat.neq_0_succ 0)).
    + exact (Hon 1 eq_refl).
  - destruct (set_diag_sparse_entries [Sparse doubled] 0 5%Z
                doubled Z_add_zero eq_refl)
      as (h' & r' & s' & Hset & Hlook & Hshape & Hoff & Hon).
    exists h', r', s'. repeat split; [done..| |].
    + exact (Hoff 1 0 (Nat.neq_succ_0 0)).
    + exact (Hon 1 eq_refl).
Defined.

Lemma set_diag_sparse_aliasing_witness :
  (∀ x : Z, fadd x fzero = x)
  ∧ (∃ h' r',
       _set_diag [Sparse isolated_laplacian] 0 5%Z = Some (h', r')
       ∧ 1 ≤ r'
       ∧ h' !! 0 = Some (Sparse isolated_laplacian))
  ∧ ∃ h' r' s0,
      _set_diag [Sparse doubled] 0 5%Z = Some (h', r')
      ∧ 1 ≤ r'
      ∧ h' !! 0 = Some (Sparse s0)
      ∧ sp_fmt s0 = COO
      ∧ sp_shape s0 = (2, 2)
      ∧ sp_entry s0 1 0 = 3%Z
      ∧ sp_entry s0 1 1 = 5%Z.
Proof.
  split; [exact Z_add_zero|]. split.
  - destruct (set_diag_sparse_aliasing [Sparse isolated_laplacian] 0 5%Z
                isolated_laplacian Z_add_zero eq_refl)
      as (h' & r' & s0 & Hset & Hfresh & Hlook & _ & _ & Hsame & _).
    exists h', r'. split; [done|]. split; [done|].
    by rewrite <- (Hsame ltac:(discriminate)).
  - destruct (set_diag_sparse_aliasing [Sparse doubled] 0 5%Z
                doubled Z_add_zero eq_refl)
      as (h' & r' & s0 & Hset & Hfresh & Hlook & Hfmt & Hshape & _ & Hcoo
          & _).
    destruct (Hcoo eq_refl) as [Hoff Hon].
    exists h', r', s0. repeat split; [done..| |].
    + exact (Hoff 1 0 (Nat.neq_succ_0 0)).
    + exact (Hon 1 eq_refl).
Defined.

Lemma spectral_embedding_shape_witness :
  ∃ E,
    spectral_embedding table_decompose (GeometryObj star_geometry) 2%Z
                       SolverNone SeedNone 0%Z false
    = (pipeline_trace true
         (EigenRequest (Dense star_laplacian) 2%Z SolverNone GlobalRng 0%Z
                       false),
       inr E)
    ∧ nrows E = shape0 (Dense star_laplacian)
    ∧ ncols E
      = Nat.min (Z.to_nat 2)
                (ncols (Array2 2 [ [1; 0]; [1; 1]; [1; -1]; [1; 0] ]%Z)).
Proof.
  apply (spectral_embedding_shape table_decompose star_geometry 2%Z
           SolverNone SeedNone 0%Z false GlobalRng (Dense star_affinity)
           (Dense star_laplacian) true [0; 1]%Z
           (Array2 2 [ [1; 0]; [1; 1]; [1; -1]; [1; 0] ]%Z));
    [lia|reflexivity..|exact star_laplacian_square|reflexivity|reflexivity].
Defined.


Lemma spectral_embedding_dispatcher_error_witness :
  spectral_embedding failing_decompose (GeometryObj star_geometry) 2%Z
                     SolverNone SeedNone 0%Z true
  = (pipeline_trace true
       (EigenRequest (Dense star_laplacian) 2%Z SolverNone GlobalRng 0%Z
                     true),
     inl NumericalNonConvergence).
Proof.
  apply (spectral_embedding_dispatcher_error failing_decompose star_geometry
           2%Z SolverNone SeedNone 0%Z true GlobalRng (Dense star_affinity)
           (Dense star_laplacian) true NumericalNonConvergence);
    reflexivity.
Defined.

Lemma spectral_embedding_reply_mismatch_witness :
  spectral_embedding short_decompose (GeometryObj star_geometry) 1%Z
                     SolverNone SeedNone 0%Z false
  = (pipeline_trace true
       (EigenRequest (Dense star_laplacian) 1%Z SolverNone GlobalRng 0%Z
                     false),
     inl ValueError).
Proof.
  apply (spectral_embedding_reply_mismatch short_decompose star_geometry
           1%Z SolverNone SeedNone 0%Z false GlobalRng (Dense star_affinity)
           (Dense star_laplacian) true [0%Z] (Array2 1 [ [1]; [1] ]%Z));
    [reflexivity..| | |]; vm_compute; lia.
Defined.

Lemma two_cliques_symmetric (a b : nat) :
  symmetric_graph (Dense (two_cliques a b)).
Proof. intros i j. rewrite !two_cliques_edge. tauto. Qed.

Lemma spectral_embedding_warns_iff_split_witness :
  0 < shape0 (Dense (two_cliques 2 2))
  ∧ (EvWarn not_connected_warning
       ∈ (spectral_embedding table_decompose (GeometryObj cliques_geometry)
                             2%Z SolverNone SeedNone 0%Z false).1
     ↔ ¬ one_component (Dense (two_cliques 2 2))).
Proof.
  split; [vm_compute; lia|].
  apply (spectral_embedding_warns_iff_split table_decompose cliques_geometry
           2%Z SolverNone SeedNone 0%Z false GlobalRng
           (Dense (two_cliques 2 2)));
    [reflexivity|reflexivity|exact (two_cliques_square 2 2)
    |exact (two_cliques_symmetric 2 2)|vm_compute; lia].
Defined.

Lemma spectral_embedding_empty_dense_witness :
  spectral_embedding table_decompose (GeometryObj empty_geometry) 2%Z
                     SolverNone SeedNone 0%Z true
  = ([], inl IndexError).
Proof.
  apply (spectral_embedding_empty_dense table_decompose empty_geometry 2%Z
           SolverNone SeedNone 0%Z true GlobalRng (Array2 0 []));
    reflexivity.
Defined.

Lemma spectral_embedding_ignores_eigenvalues_witness :
  spectral_embedding table_decompose (GeometryObj star_geometry) 2%Z
                     SolverNone SeedNone 0%Z false
  = spectral_embedding mislabelled_decompose (GeometryObj star_geometry) 2%Z
                       SolverNone SeedNone 0%Z false.
Proof.
  apply (spectral_embedding_ignores_eigenvalues table_decompose
           mislabelled_decompose star_geometry 2%Z SolverNone SeedNone 0%Z
           false GlobalRng (Dense star_affinity) (Dense star_laplacian) true
           [0; 1]%Z [7; 9]%Z (Array2 2 [ [1; 0]; [1; 1]; [1; -1]; [1; 0] ]%Z));
    reflexivity.
Defined.
